(** * fluent_validator: the AND/OR composition engine and two numeric rules

    A shallow embedding of the Go package [fluent_validator]:

    - [ValidationResult], [Success], [Fail], the [Validator] contract,
      the builder ([New], [And], [Or]) and the chain evaluation, the
      method [Validate] of [FluentValidator];
    - the rules [IntMultipleOf] and [FloatMultipleOf] of rules.go;
    - the error helpers [NewErrorFromStrings] and [NewJSONError];
    - further rules of rules.go: the bounds on integers, lengths and floats,
      [ContainsString], [UniqueStrings], [LuhnValid], the two email domain
      rules, [IsWeekday] and [IsWeekend].

    Modelling conventions.

    - A Go [[]string] is a [list string]. A nil slice and an empty slice are
      both the empty list: the engine only takes [len] of a rule's messages
      and appends them, and every slice it returns is non-nil.
    - A validator is a zero-argument Go closure. It may read and write state
      it has captured (a call counter, the clock) and it may panic (so does
      the call of a nil [Validator]). A closure is therefore a computation in
      the monad [M W]: from a world [w : W] it either returns a result and a
      new world, or panics ([None]). The engine has no [recover], so a panic
      of a rule is a panic of [Validate].
    - The receiver of a method of [FluentValidator] is a pointer that is not
      nil, as [New] returns it.
    - Go's [int] is taken as [Z]; the only arithmetic on it here is [%]. *)

From Stdlib Require Import List String Ascii Bool Arith ZArith Lia.
From Stdlib Require Import DecimalString Floats Sorted.
Import ListNotations.

Set Implicit Arguments.

Local Open Scope string_scope.
Local Open Scope list_scope.

(** ** Results *)

(** [type ValidationResult struct { IsValid bool; Message []string }] *)
Record ValidationResult : Type := mkResult {
  IsValid : bool;
  Message : list string
}.

(** [func Success() ValidationResult] *)
Definition Success : ValidationResult :=
  {| IsValid := true; Message := [] |}.

(** [func Fail(msg ...string) ValidationResult] *)
Definition Fail (msg : list string) : ValidationResult :=
  {| IsValid := false; Message := msg |}.

(** [type logicalOp uint8], with the two constants the package declares.
    [steps] is unexported and only [And] and [Or] append to it, so no other
    tag reaches the [switch] of [Validate]. *)
Inductive logicalOp : Type := opAnd | opOr.

(** ** Computations of Go closures *)

Module GoM.

(** A computation over a world [W] that may panic. *)
Definition M (W A : Type) : Type := W -> option (A * W).

Definition ret {W A : Type} (a : A) : M W A := fun w => Some (a, w).

Definition bind {W A B : Type} (c : M W A) (k : A -> M W B) : M W B :=
  fun w => match c w with
           | Some (a, w') => k a w'
           | None => None
           end.

(** A Go [panic]. *)
Definition panic {W A : Type} : M W A := fun _ => None.

End GoM.
Import GoM.

Declare Scope go_scope.
Delimit Scope go_scope with go.
Notation "x <- c ;; k" := (bind c (fun x => k))
  (at level 61, c at next level, right associativity) : go_scope.
Local Open Scope go_scope.

(** ** The engine *)

(** The two locals [accValid] and [messages] the loop of [Validate]
    carries from one iteration to the next. *)
Record acc : Type := mkAcc {
  accValid : bool;
  messages : list string
}.

(** [accValid := false; messages := make([]string, 0, len(f.steps))] *)
Definition acc0 : acc := {| accValid := false; messages := [] |}.

(** [if !res.IsValid && len(res.Message) > 0 { messages = append(messages, res.Message...) }] *)
Definition collect_failure (messages : list string) (res : ValidationResult)
  : list string :=
  if negb (IsValid res) && (0 <? List.length (Message res))%nat
  then messages ++ Message res
  else messages.

(** The two states of the accumulator. *)
Inductive State : Type := PASSING | FAILING.

Definition state_of (a : acc) : State :=
  if accValid a then PASSING else FAILING.

Section Engine.

(** The state the rules of a chain have captured. *)
Context {W : Type}.

(** [type Validator interface { Validate() ValidationResult }]; a nil
    interface value is the computation [panic]. *)
Definition Validator : Type := M W ValidationResult.

(** [type ValidatorFunc func() ValidationResult] and its method
    [func (f ValidatorFunc) Validate() ValidationResult { return f() }]. *)
Definition ValidatorFunc : Type := M W ValidationResult.
Definition ValidatorFunc_Validate (f : ValidatorFunc) : Validator := f.

(** [type chainedStep struct { validator Validator; op logicalOp }] *)
Record chainedStep : Type := mkStep {
  validator : Validator;
  op : logicalOp
}.

(** [type FluentValidator struct { steps []chainedStep }] *)
Record FluentValidator : Type := mkChain {
  steps : list chainedStep
}.

(** [func New() *FluentValidator] *)
Definition New : FluentValidator := {| steps := [] |}.

(** [func (f *FluentValidator) And(v Validator) *FluentValidator]: the
    receiver after the append, which is also the value returned. *)
Definition And (f : FluentValidator) (v : Validator) : FluentValidator :=
  {| steps := steps f ++ [ {| validator := v; op := opAnd |} ] |}.

(** [func (f *FluentValidator) Or(v Validator) *FluentValidator] *)
Definition Or (f : FluentValidator) (v : Validator) : FluentValidator :=
  {| steps := steps f ++ [ {| validator := v; op := opOr |} ] |}.

(** One iteration of [for i, step := range f.steps { ... }]. *)
Definition body (i : nat) (step : chainedStep) (a : acc) : M W acc :=
  if (i =? 0)%nat then
    res <- validator step ;;
    ret {| accValid := IsValid res;
           messages := collect_failure (messages a) res |}
  else
    match op step with
    | opAnd =>
        if negb (accValid a) then ret a
        else
          res <- validator step ;;
          ret {| accValid := accValid a && IsValid res;
                 messages := collect_failure (messages a) res |}
    | opOr =>
        if accValid a then ret a
        else
          res <- validator step ;;
          ret {| accValid := accValid a || IsValid res;
                 messages :=
                   if IsValid res then []
                   else if (0 <? List.length (Message res))%nat
                        then messages a ++ Message res
                        else messages a |}
    end.

(** The [range] loop from index [i] on. *)
Fixpoint loop (i : nat) (l : list chainedStep) (a : acc) : M W acc :=
  match l with
  | [] => ret a
  | step :: l' => a' <- body i step a ;; loop (S i) l' a'
  end.

(** [func (f *FluentValidator) Validate() ValidationResult]. The method
    reads [f.steps] and never assigns it: the chain is an argument only. *)
Definition Validate (f : FluentValidator) : M W ValidationResult :=
  if (List.length (steps f) =? 0)%nat then ret Success
  else
    a <- loop 0 (steps f) acc0 ;;
    if accValid a then ret Success
    else ret {| IsValid := false; Message := messages a |}.

(** Every rule of the list called once, in order: what a chain without
    any short-circuit would do. *)
Fixpoint invoke_all (l : list chainedStep) : M W (list ValidationResult) :=
  match l with
  | [] => ret []
  | step :: l' =>
      res <- validator step ;;
      rs <- invoke_all l' ;;
      ret (res :: rs)
  end.

(** A rule whose outcome does not depend on the world it is called in
    (it may still change the world, say count its calls). *)
Definition deterministic (v : Validator) : Prop :=
  forall w1 w2 : W, option_map fst (v w1) = option_map fst (v w2).

End Engine.

Arguments Validator : clear implicits.
Arguments ValidatorFunc : clear implicits.
Arguments chainedStep : clear implicits.
Arguments FluentValidator : clear implicits.

(** ** Rule wrappers used to observe a chain *)

(** A rule that returns [res] and touches nothing: [pass()] is
    [const_rule Success], [fail("x")] is [const_rule (Fail ["x"])]. *)
Definition const_rule {W : Type} (res : ValidationResult) : Validator W :=
  ret res.

(** One entry of the call log: the index of the step whose rule was called
    and what the call returned. *)
Definition Event : Type := (nat * ValidationResult)%type.

(** The call-counter wrapper: runs [v] and appends the call to a log kept
    next to the world of [v]. *)
Definition logged {W : Type} (i : nat) (v : Validator W)
  : Validator (W * list Event) :=
  fun wl =>
    match v (fst wl) with
    | Some (res, w') => Some (res, (w', snd wl ++ [(i, res)]))
    | None => None
    end.

(** Wraps the rule of every step, numbering the steps from [i]. *)
Fixpoint instrument_from {W : Type} (i : nat) (l : list (chainedStep W))
  : list (chainedStep (W * list Event)) :=
  match l with
  | [] => []
  | step :: l' =>
      {| validator := logged i (validator step); op := op step |}
        :: instrument_from (S i) l'
  end.

Definition instrument {W : Type} (f : FluentValidator W)
  : FluentValidator (W * list Event) :=
  {| steps := instrument_from 0 (steps f) |}.

(** ** Two numeric rules of rules.go *)

(** [strconv.Itoa] *)
Definition Itoa (n : Z) : string := NilZero.string_of_int (Z.to_int n).

(** Go's integer [v % m]: the remainder of the truncated division, and a
    run-time panic when the divisor is zero. *)
Definition go_rem {W : Type} (v m : Z) : M W Z :=
  if (m =? 0)%Z then panic else ret (Z.rem v m).

(** [func IntMultipleOf(v, m int) ValidatorFunc]. The condition
    [m == 0 || v%m != 0] evaluates its right operand only when the left one
    is false. *)
Definition IntMultipleOf {W : Type} (v m : Z) : ValidatorFunc W :=
  cond <- (if (m =? 0)%Z then ret true
           else r <- go_rem v m ;; ret (negb (r =? 0)%Z)) ;;
  if cond : bool
  then ret (Fail [("must be a multiple of " ++ Itoa m)%string])
  else ret Success.

Section FloatRules.

(** [strconv.FormatFloat(f, 'f', -1, 64)], a function of Go's library. *)
Variable FormatFloat : float -> string.

(** The value of the conversion [int64(q)] when [q] is a NaN, an infinity or
    has an integer part outside of [int64]: Go leaves it to the
    implementation. *)
Variable int64_unrepresentable : float -> Z.

(** The loop [for i > 0 && s[i-1] == '0' { i-- }] of [trimFloatZeros], on the
    reversed string. *)
Fixpoint drop_zeros (r : list ascii) : list ascii :=
  match r with
  | "0"%char :: r' => drop_zeros r'
  | _ => r
  end.

(** [if i > 0 && s[i-1] == '.' { i-- }], on the reversed string. *)
Definition drop_dot (r : list ascii) : list ascii :=
  match r with
  | "."%char :: r' => r'
  | _ => r
  end.

(** [func trimFloatZeros(f float64) string] *)
Definition trimFloatZeros (f : float) : string :=
  string_of_list_ascii
    (rev (drop_dot (drop_zeros (rev (list_ascii_of_string (FormatFloat f)))))).

(** The integer part of a float, when it has one. *)
Definition trunc_SF (x : spec_float) : option Z :=
  match x with
  | S754_zero _ => Some 0%Z
  | S754_finite s m e =>
      let a := if (0 <=? e)%Z then (Z.pos m * 2 ^ e)%Z
               else (Z.pos m / 2 ^ (- e))%Z in
      Some (if s then (- a)%Z else a)
  | S754_infinity _ | S754_nan => None
  end.

(** The conversion [int64(q)] of a [float64]. *)
Definition int64_of_float64 (q : float) : Z :=
  match trunc_SF (Prim2SF q) with
  | Some z =>
      if ((- 2 ^ 63 <=? z) && (z <? 2 ^ 63))%Z then z
      else int64_unrepresentable q
  | None => int64_unrepresentable q
  end.

(** The conversion [float64(z)] of an [int64]: the nearest [float64]. *)
Definition float64_of_int64 (z : Z) : float :=
  SF2Prim (binary_normalize prec emax z 0 false).

(** [func FloatMultipleOf(v, m float64) ValidatorFunc], every operation
    rounded on its own; the literal is the [float64] nearest to [1e-9]. *)
Definition FloatMultipleOf {W : Type} (v m : float) : ValidatorFunc W :=
  if (m =? 0)%float then ret (Fail ["must be a multiple of 0 is undefined"])
  else
    let q := (v / m)%float in
    let qi := float64_of_int64 (int64_of_float64 q) in
    let r := (v - qi * m)%float in
    let r := if (r <? 0)%float then (- r)%float else r in
    if (0x1.12e0be826d695p-30 <? r)%float
    then ret (Fail [("must be a multiple of " ++ trimFloatZeros m)%string])
    else ret Success.

End FloatRules.

(** ** The rules of the examples *)

(** A rule that passes: [func() ValidationResult { return Success() }]. *)
Definition passRule {W : Type} : Validator W := const_rule Success.

(** [failMsg] of the tests:
    [func() ValidationResult { return Fail(msg) }]. *)
Definition failMsg {W : Type} (msg : string) : Validator W :=
  const_rule (Fail [msg]).

(** A rule that counts its calls in the world and fails each time, as a
    closure over a counter does. *)
Definition countingFail (msg : string) : Validator nat :=
  fun n => Some (Fail [msg], S n).

(** ** The two halves of an iteration *)

(** Whether iteration [i] calls the rule of its step: the first iteration
    does; a later one does on an AND step when the accumulator is true and
    on an OR step when it is false. *)
Definition invokes (i : nat) (o : logicalOp) (a : acc) : bool :=
  (i =? 0)%nat || match o with
                  | opAnd => accValid a
                  | opOr => negb (accValid a)
                  end.

(** The accumulator after the rule called in iteration [i] returned [res]. *)
Definition absorb (i : nat) (o : logicalOp) (a : acc) (res : ValidationResult)
  : acc :=
  {| accValid := IsValid res;
     messages :=
       if IsValid res
       then (if (i =? 0)%nat then messages a
             else match o with opAnd => messages a | opOr => [] end)
       else messages a ++ Message res |}.

(** Every message of [ms] is a message of a failure in the log. *)
Definition from_failures (log : list Event) (ms : list string) : Prop :=
  forall m : string,
    In m ms ->
    exists (i : nat) (res : ValidationResult),
      In (i, res) log /\ IsValid res = false /\ In m (Message res).

(** ** The chain read as a boolean formula *)

(** What a step tagged [o] makes of the accumulator [b] and of the validity
    [r] of its rule: [accValid && res.IsValid] or [accValid || res.IsValid]. *)
Definition combine_valid (o : logicalOp) (b r : bool) : bool :=
  match o with
  | opAnd => b && r
  | opOr => b || r
  end.

(** The steps of a chain folded from the left, without precedence between
    AND and OR: each step is given by the validity of its rule and its tag.
    The tag of the first step is not read. *)
Definition chain_valid (l : list (bool * logicalOp)) : bool :=
  match l with
  | [] => true
  | (r, _) :: l' =>
      fold_left (fun b ro => combine_valid (snd ro) b (fst ro)) l' r
  end.

(** The rule of [s] returns [res] in every world. *)
Definition always_returns {W : Type} (s : chainedStep W)
           (res : ValidationResult) : Prop :=
  forall w : W, exists w' : W, validator s w = Some (res, w').

(** What [Validate] returns for a loop that ended with accumulator [a]. *)
Definition result_of (a : acc) : ValidationResult :=
  if accValid a then Success
  else {| IsValid := false; Message := messages a |}.

(** ** The error helpers *)

(** The error values the helpers build: the value of [errors.New] and the
    value of [errors.Join], which wraps the errors it was given. *)
Unset Elimination Schemes.
Inductive GoError : Type :=
| errorString (text : string)
| joinError (errs : list GoError).
Set Elimination Schemes.

(** A Go [error]; [None] is nil. *)
Definition error : Type := option GoError.

(** The byte ['\n']. *)
Definition newline : string := String "010"%char EmptyString.

(** The method [Error] of the two error values: the text of [errors.New],
    and for [errors.Join] the texts of the wrapped errors with a newline
    between each. *)
Fixpoint Error (e : GoError) : string :=
  match e with
  | errorString text => text
  | joinError errs => String.concat newline (map Error errs)
  end.

(** [errors.New] *)
Definition errors_New (text : string) : error := Some (errorString text).

(** [errors.Join]: nil errors are discarded; nil when nothing is left. *)
Definition errors_Join (errs : list error) : error :=
  match flat_map (fun e : error => match e with
                                   | Some x => [x]
                                   | None => []
                                   end) errs with
  | [] => None
  | kept => Some (joinError kept)
  end.

(** [type ErrorResponse struct { Errors []string `json:"errors"` }] *)
Record ErrorResponse : Type := mkErrorResponse {
  Errors : list string
}.

(** [func NewErrorFromStrings(errs []string) error] *)
Definition NewErrorFromStrings (errs : list string) : error :=
  if (List.length errs =? 0)%nat then None
  else
    let eList := map errors_New errs in
    errors_Join eList.

Section JSONError.

(** [json.Marshal] on an [ErrorResponse]: the bytes and the error it
    returns, a function of Go's library. *)
Variable json_Marshal : ErrorResponse -> string * error.

(** [func NewJSONError(errs []string) error] *)
Definition NewJSONError (errs : list string) : error :=
  if (List.length errs =? 0)%nat then None
  else
    let resp := {| Errors := errs |} in
    let (b, err) := json_Marshal resp in
    match err with
    | Some e => Some e
    | None => errors_New b
    end.

End JSONError.

(** ** More rules of rules.go *)

Section Rules.

Context {W : Type}.

(** [len(s)] of a Go string: its number of bytes. *)
Definition len (s : string) : Z := Z.of_nat (String.length s).

(** [func NonEmpty(s string) ValidatorFunc] *)
Definition NonEmpty (s : string) : ValidatorFunc W :=
  if String.eqb s "" then ret (Fail ["must not be empty"]) else ret Success.

(** [func MinLen(s string, n int) ValidatorFunc] *)
Definition MinLen (s : string) (n : Z) : ValidatorFunc W :=
  if (len s <? n)%Z then ret (Fail [("too short: min " ++ Itoa n)%string])
  else ret Success.

(** [func MaxLen(s string, n int) ValidatorFunc] *)
Definition MaxLen (s : string) (n : Z) : ValidatorFunc W :=
  if (len s >? n)%Z then ret (Fail [("too long: max " ++ Itoa n)%string])
  else ret Success.

(** [func LenBetween(s string, min, max int) ValidatorFunc] *)
Definition LenBetween (s : string) (min max : Z) : ValidatorFunc W :=
  let l := len s in
  if ((l <? min) || (l >? max))%Z
  then ret (Fail [("length must be between " ++ Itoa min ++ " and "
                     ++ Itoa max)%string])
  else ret Success.

(** [func IntMin(v, min int) ValidatorFunc] *)
Definition IntMin (v min : Z) : ValidatorFunc W :=
  if (v <? min)%Z then ret (Fail [("must be >= " ++ Itoa min)%string])
  else ret Success.

(** [func IntMax(v, max int) ValidatorFunc] *)
Definition IntMax (v max : Z) : ValidatorFunc W :=
  if (v >? max)%Z then ret (Fail [("must be <= " ++ Itoa max)%string])
  else ret Success.

(** [func IntBetween(v, min, max int) ValidatorFunc] *)
Definition IntBetween (v min max : Z) : ValidatorFunc W :=
  if ((v <? min) || (v >? max))%Z
  then ret (Fail [("must be between " ++ Itoa min ++ " and "
                     ++ Itoa max)%string])
  else ret Success.

(** [func IntNonZero(v int) ValidatorFunc] *)
Definition IntNonZero (v : Z) : ValidatorFunc W :=
  if (v =? 0)%Z then ret (Fail ["must not be zero"]) else ret Success.

(** [func IntPositive(v int) ValidatorFunc] *)
Definition IntPositive (v : Z) : ValidatorFunc W :=
  if (v <=? 0)%Z then ret (Fail ["must be > 0"]) else ret Success.

(** [func IntNonNegative(v int) ValidatorFunc] *)
Definition IntNonNegative (v : Z) : ValidatorFunc W :=
  if (v <? 0)%Z then ret (Fail ["must be >= 0"]) else ret Success.

(** [func IntGreaterThan(v, min int) ValidatorFunc] *)
Definition IntGreaterThan (v min : Z) : ValidatorFunc W :=
  if (v <=? min)%Z then ret (Fail [("must be > " ++ Itoa min)%string])
  else ret Success.

(** [func IntLessThan(v, max int) ValidatorFunc] *)
Definition IntLessThan (v max : Z) : ValidatorFunc W :=
  if (v >=? max)%Z then ret (Fail [("must be < " ++ Itoa max)%string])
  else ret Success.

(** The loop of [ContainsString]: [Success()] at the first element equal to
    [elem], the failure after the last one. *)
Fixpoint ContainsString_loop (list : list string) (elem : string)
  : ValidationResult :=
  match list with
  | [] => Fail [("must contain " ++ elem)%string]
  | v :: list' =>
      if String.eqb v elem then Success
      else ContainsString_loop list' elem
  end.

(** [func ContainsString(list []string, elem string) ValidatorFunc] *)
Definition ContainsString (list : list string) (elem : string)
  : ValidatorFunc W :=
  ret (ContainsString_loop list elem).

(** The loop of [UniqueStrings]; the keys of the map [seen] are kept in a
    list, looked up with [existsb] and added in front. *)
Fixpoint UniqueStrings_loop (list seen : list string) : ValidationResult :=
  match list with
  | [] => Success
  | v :: list' =>
      if existsb (String.eqb v) seen then Fail ["must be unique"]
      else UniqueStrings_loop list' (v :: seen)
  end.

(** [func UniqueStrings(list []string) ValidatorFunc] *)
Definition UniqueStrings (list : list string) : ValidatorFunc W :=
  ret (UniqueStrings_loop list []).

End Rules.

(** *** The Luhn checksum *)

(** The locals [sum], [alt] and [digits] of [LuhnValid]. *)
Record luhn_state : Type := mkLuhn {
  luhn_sum : Z;
  luhn_alt : bool;
  luhn_digits : Z
}.

(** The value of a byte as Go's [byte]. *)
Definition byte_val (ch : ascii) : Z := Z.of_nat (nat_of_ascii ch).

(** What a digit adds to [sum]: itself, or when [alt] is set its double,
    less 9 if the double is more than 9. *)
Definition luhn_digit (alt : bool) (d : Z) : Z :=
  if alt then (let d2 := d * 2 in if d2 >? 9 then d2 - 9 else d2)%Z
  else d.

(** One iteration of the loop of [LuhnValid] on the byte [ch]; [None] is
    the [return Fail("must be numeric")]. *)
Definition luhn_step (ch : ascii) (st : luhn_state) : option luhn_state :=
  if Ascii.eqb ch " "%char then Some st
  else if ((byte_val ch <? byte_val "0"%char)
           || (byte_val ch >? byte_val "9"%char))%Z then None
  else
    let d := (byte_val ch - byte_val "0"%char)%Z in
    Some {| luhn_sum := luhn_sum st + luhn_digit (luhn_alt st) d;
            luhn_alt := negb (luhn_alt st);
            luhn_digits := luhn_digits st + 1 |}.

(** The loop [for i := len(s) - 1; i >= 0; i--], given the bytes of [s]
    from the last one to the first. *)
Fixpoint luhn_loop (rbytes : list ascii) (st : luhn_state)
  : option luhn_state :=
  match rbytes with
  | [] => Some st
  | ch :: rbytes' =>
      match luhn_step ch st with
      | Some st' => luhn_loop rbytes' st'
      | None => None
      end
  end.

(** The body of the closure [LuhnValid] returns. *)
Definition luhn_result (s : string) : ValidationResult :=
  match luhn_loop (rev (list_ascii_of_string s))
                  {| luhn_sum := 0; luhn_alt := false; luhn_digits := 0 |} with
  | None => Fail ["must be numeric"]
  | Some st =>
      if ((luhn_digits st =? 0) || negb (Z.rem (luhn_sum st) 10 =? 0))%Z
      then Fail ["invalid luhn"]
      else Success
  end.

(** [func LuhnValid(s string) ValidatorFunc] *)
Definition LuhnValid {W : Type} (s : string) : ValidatorFunc W :=
  ret (luhn_result s).

(** A byte [LuhnValid] accepts: a space or a decimal digit. *)
Definition luhn_byte_ok (ch : ascii) : bool :=
  Ascii.eqb ch " "%char
  || ((byte_val "0"%char <=? byte_val ch)
      && (byte_val ch <=? byte_val "9"%char))%Z.

(** The decimal digit [d] as a byte. *)
Definition digit_byte (d : Z) : ascii :=
  ascii_of_nat (Z.to_nat (byte_val "0"%char + d)).

(** *** The domain of an email address *)

(** [strings.LastIndexByte]: the index of the last byte [c] of [s], or -1;
    [found] is the last index seen before position [i]. *)
Fixpoint last_index_from (i : Z) (bytes : list ascii) (c : ascii) (found : Z)
  : Z :=
  match bytes with
  | [] => found
  | x :: bytes' =>
      last_index_from (i + 1) bytes' c (if Ascii.eqb x c then i else found)
  end.

Definition LastIndexByte (s : string) (c : ascii) : Z :=
  last_index_from 0 (list_ascii_of_string s) c (-1).

(** The slice [s[n:]] for [0 <= n <= len(s)]. *)
Definition slice_from (s : string) (n : Z) : string :=
  string_of_list_ascii (skipn (Z.to_nat n) (list_ascii_of_string s)).

Section EmailDomain.

Context {W : Type}.

(** [strings.ToLower], a function of Go's library. *)
Variable ToLower : string -> string.

(** The loop of [EmailDomainAllowlist]. *)
Fixpoint allowlist_loop (dom : string) (allowed : list string)
  : ValidationResult :=
  match allowed with
  | [] => Fail ["email domain not allowed"]
  | d :: allowed' =>
      if String.eqb dom (ToLower d) then Success
      else allowlist_loop dom allowed'
  end.

(** [func EmailDomainAllowlist(s string, allowed []string) ValidatorFunc] *)
Definition EmailDomainAllowlist (s : string) (allowed : list string)
  : ValidatorFunc W :=
  let at_ := LastIndexByte s "@"%char in
  if (at_ =? -1)%Z then ret (Fail ["invalid email"])
  else
    let dom := ToLower (slice_from s (at_ + 1)) in
    ret (allowlist_loop dom allowed).

(** The loop of [EmailDomainBlocklist]. *)
Fixpoint blocklist_loop (dom : string) (blocked : list string)
  : ValidationResult :=
  match blocked with
  | [] => Success
  | d :: blocked' =>
      if String.eqb dom (ToLower d) then Fail ["email domain blocked"]
      else blocklist_loop dom blocked'
  end.

(** [func EmailDomainBlocklist(s string, blocked []string) ValidatorFunc] *)
Definition EmailDomainBlocklist (s : string) (blocked : list string)
  : ValidatorFunc W :=
  let at_ := LastIndexByte s "@"%char in
  if (at_ =? -1)%Z then ret (Fail ["invalid email"])
  else
    let dom := ToLower (slice_from s (at_ + 1)) in
    ret (blocklist_loop dom blocked).

End EmailDomain.

(** *** Days of the week *)

Section Weekdays.

Context {W : Type}.

(** [time.Time] and its method [Weekday], of Go's library; [time.Weekday]
    is an [int] with [Sunday] = 0, ..., [Saturday] = 6. *)
Variable Time : Type.
Variable Weekday : Time -> Z.

Definition Sunday : Z := 0.
Definition Saturday : Z := 6.

(** [func IsWeekday(t time.Time) ValidatorFunc] *)
Definition IsWeekday (t : Time) : ValidatorFunc W :=
  let wd := Weekday t in
  if ((wd =? Saturday) || (wd =? Sunday))%Z
  then ret (Fail ["must be a weekday"])
  else ret Success.

(** [func IsWeekend(t time.Time) ValidatorFunc] *)
Definition IsWeekend (t : Time) : ValidatorFunc W :=
  let wd := Weekday t in
  if (negb (wd =? Saturday) && negb (wd =? Sunday))%Z
  then ret (Fail ["must be a weekend day"])
  else ret Success.

End Weekdays.

(** *** Bounds on floats *)

Section FloatBounds.

Context {W : Type}.

(** [strconv.FormatFloat(f, 'f', -1, 64)], as for [trimFloatZeros]. *)
Variable FormatFloat : float -> string.

(** [func FloatMin(v, min float64) ValidatorFunc] *)
Definition FloatMin (v min : float) : ValidatorFunc W :=
  if (v <? min)%float
  then ret (Fail [("must be >= " ++ trimFloatZeros FormatFloat min)%string])
  else ret Success.

(** [func FloatMax(v, max float64) ValidatorFunc] *)
Definition FloatMax (v max : float) : ValidatorFunc W :=
  if (max <? v)%float
  then ret (Fail [("must be <= " ++ trimFloatZeros FormatFloat max)%string])
  else ret Success.

(** [func FloatBetween(v, min, max float64) ValidatorFunc] *)
Definition FloatBetween (v min max : float) : ValidatorFunc W :=
  if ((v <? min) || (max <? v))%float
  then ret (Fail [("must be between " ++ trimFloatZeros FormatFloat min
                     ++ " and " ++ trimFloatZeros FormatFloat max)%string])
  else ret Success.

(** [func FloatNonZero(v float64) ValidatorFunc] *)
Definition FloatNonZero (v : float) : ValidatorFunc W :=
  if (v =? 0)%float then ret (Fail ["must not be zero"]) else ret Success.

(** [func FloatGreaterThan(v, min float64) ValidatorFunc] *)
Definition FloatGreaterThan (v min : float) : ValidatorFunc W :=
  if negb (min <? v)%float
  then ret (Fail [("must be > " ++ trimFloatZeros FormatFloat min)%string])
  else ret Success.

(** [func FloatLessThan(v, max float64) ValidatorFunc] *)
Definition FloatLessThan (v max : float) : ValidatorFunc W :=
  if negb (v <? max)%float
  then ret (Fail [("must be < " ++ trimFloatZeros FormatFloat max)%string])
  else ret Success.

End FloatBounds.

(** * Properties *)

(** ** Equations of the loop *)

Section LoopFacts.

Context {W : Type}.
Implicit Types (l pre rest : list (chainedStep W)) (s : chainedStep W).
Implicit Types (a : acc) (w : W) (res : ValidationResult).

(** The guard [len(res.Message) > 0] changes nothing: appending no message
    is no append. *)
Lemma append_guard (ms m : list string) :
  (if (0 <? List.length m)%nat then ms ++ m else ms) = ms ++ m.
Proof.
  destruct m as [| x m]; simpl; [ now rewrite app_nil_r | reflexivity ].
Qed.

Lemma collect_failure_eq (ms : list string) res :
  collect_failure ms res = if IsValid res then ms else ms ++ Message res.
Proof.
  unfold collect_failure. destruct (IsValid res); simpl; [ reflexivity | ].
  apply append_guard.
Qed.

Lemma bind_inv {A B : Type} (c : M W A) (k : A -> M W B) w y w2 :
  bind c k w = Some (y, w2) ->
  exists x w1, c w = Some (x, w1) /\ k x w1 = Some (y, w2).
Proof.
  unfold bind. destruct (c w) as [[x w1] |]; [ | discriminate ].
  intros H. now exists x, w1.
Qed.

(** The first iteration, whatever the tag of the step. *)
Lemma body_first s a w :
  body 0 s a w =
  match validator s w with
  | Some (res, w') =>
      Some ({| accValid := IsValid res;
               messages := if IsValid res then messages a
                           else messages a ++ Message res |}, w')
  | None => None
  end.
Proof.
  unfold body, bind, ret. simpl.
  destruct (validator s w) as [[res w'] |]; [ | reflexivity ].
  now rewrite collect_failure_eq.
Qed.

(** A later iteration on an AND step. *)
Lemma body_and i s a w :
  i <> 0 -> op s = opAnd ->
  body i s a w =
  if accValid a then
    match validator s w with
    | Some (res, w') =>
        Some ({| accValid := IsValid res;
                 messages := if IsValid res then messages a
                             else messages a ++ Message res |}, w')
    | None => None
    end
  else Some (a, w).
Proof.
  intros Hi Hop. unfold body. rewrite (proj2 (Nat.eqb_neq i 0) Hi), Hop.
  destruct (accValid a); simpl; [ | reflexivity ].
  unfold bind, ret. destruct (validator s w) as [[res w'] |]; [ | reflexivity ].
  now rewrite collect_failure_eq.
Qed.

(** A later iteration on an OR step. *)
Lemma body_or i s a w :
  i <> 0 -> op s = opOr ->
  body i s a w =
  if accValid a then Some (a, w)
  else
    match validator s w with
    | Some (res, w') =>
        Some ({| accValid := IsValid res;
                 messages := if IsValid res then []
                             else messages a ++ Message res |}, w')
    | None => None
    end.
Proof.
  intros Hi Hop. unfold body. rewrite (proj2 (Nat.eqb_neq i 0) Hi), Hop.
  destruct (accValid a); simpl; [ reflexivity | ].
  unfold bind, ret. destruct (validator s w) as [[res w'] |]; [ | reflexivity ].
  now rewrite append_guard.
Qed.

(** An iteration either calls the rule and absorbs its result, or leaves
    everything as it is. *)
Lemma body_split i s a w :
  body i s a w =
  if invokes i (op s) a then
    match validator s w with
    | Some (res, w') => Some (absorb i (op s) a res, w')
    | None => None
    end
  else Some (a, w).
Proof.
  unfold invokes, absorb. destruct (Nat.eq_dec i 0) as [-> | Hi].
  - rewrite body_first. reflexivity.
  - rewrite (proj2 (Nat.eqb_neq i 0) Hi). simpl. destruct (op s) eqn:Hop.
    + rewrite (body_and _ _ _ Hi Hop). now destruct (accValid a).
    + rewrite (body_or _ _ _ Hi Hop). now destruct (accValid a).
Qed.

(** The loop over a concatenation runs the first part, then the second. *)
Lemma loop_app pre rest : forall i a w,
  loop i (pre ++ rest) a w =
  match loop i pre a w with
  | Some (a', w') => loop (i + List.length pre) rest a' w'
  | None => None
  end.
Proof.
  induction pre as [| s pre IH]; intros i a w; simpl.
  - unfold ret. now rewrite Nat.add_0_r.
  - unfold bind. destruct (body i s a w) as [[a1 w1] |]; [ | reflexivity ].
    rewrite IH. now rewrite Nat.add_succ_r.
Qed.

Lemma loop_snoc pre s i a w :
  loop i (pre ++ [s]) a w =
  match loop i pre a w with
  | Some (a', w') => body (i + List.length pre) s a' w'
  | None => None
  end.
Proof.
  rewrite loop_app. destruct (loop i pre a w) as [[a' w'] |]; [ | reflexivity ].
  simpl. unfold bind, ret.
  now destruct (body (i + List.length pre) s a' w') as [[a2 w2] |].
Qed.

(** [Validate] on a chain that has a step. *)
Lemma Validate_nonempty l w :
  l <> [] ->
  Validate {| steps := l |} w =
  match loop 0 l acc0 w with
  | Some (a, w') =>
      Some (if accValid a then Success
            else {| IsValid := false; Message := messages a |}, w')
  | None => None
  end.
Proof.
  intros Hl. unfold Validate. simpl.
  destruct l as [| s l]; [ contradiction | ]. simpl. unfold bind, ret.
  destruct (body 0 s acc0 w) as [[a1 w1] |]; [ | reflexivity ].
  destruct (loop 1 l a1 w1) as [[a w'] |]; [ | reflexivity ].
  now destruct (accValid a).
Qed.

(** While the accumulator is true the message list is empty: the invariant
    of the loop behind the empty message list of a passing result. *)
Lemma body_passing_no_messages i s a w a' w' :
  i <> 0 ->
  (accValid a = true -> messages a = []) ->
  body i s a w = Some (a', w') ->
  accValid a' = true -> messages a' = [].
Proof.
  intros Hi Inv Hb.
  destruct (op s) eqn:Hop.
  - rewrite (body_and _ _ _ Hi Hop) in Hb.
    destruct (accValid a) eqn:Ha.
    + destruct (validator s w) as [[res w1] |]; [ | discriminate ].
      injection Hb as <- <-. simpl. intros ->. now apply Inv.
    + injection Hb as <- <-. congruence.
  - rewrite (body_or _ _ _ Hi Hop) in Hb.
    destruct (accValid a) eqn:Ha.
    + injection Hb as <- <-. intros _. now apply Inv.
    + destruct (validator s w) as [[res w1] |]; [ | discriminate ].
      injection Hb as <- <-. simpl. now intros ->.
Qed.

Lemma loop_passing_no_messages l : forall i a w a' w',
  i <> 0 ->
  (accValid a = true -> messages a = []) ->
  loop i l a w = Some (a', w') ->
  accValid a' = true -> messages a' = [].
Proof.
  induction l as [| s l IH]; intros i a w a' w' Hi Inv Hl.
  - injection Hl as <- <-. exact Inv.
  - simpl in Hl. apply bind_inv in Hl as (a1 & w1 & Hb & Hl).
    refine (IH (S i) a1 w1 a' w' _ _ Hl); [ lia | ].
    exact (@body_passing_no_messages i s a w a1 w1 Hi Inv Hb).
Qed.

Lemma passing_accumulator_has_no_messages l w a' w' :
  loop 0 l acc0 w = Some (a', w') ->
  accValid a' = true -> messages a' = [].
Proof.
  destruct l as [| s l]; intros Hl.
  - injection Hl as <- <-. discriminate.
  - simpl in Hl. apply bind_inv in Hl as (a1 & w1 & Hb & Hl).
    refine (@loop_passing_no_messages l 1 a1 w1 a' w' _ _ Hl); [ lia | ].
    rewrite body_first in Hb.
    destruct (validator s w) as [[res w2] |]; [ | discriminate ].
    injection Hb as <- <-. simpl. now intros ->.
Qed.

(** Once the accumulator is false, a run of AND steps leaves everything as
    it is. *)
Lemma loop_and_skipped l : forall i a w,
  i <> 0 ->
  Forall (fun s => op s = opAnd) l ->
  accValid a = false ->
  loop i l a w = Some (a, w).
Proof.
  induction l as [| s l IH]; intros i a w Hi Hall Ha; [ reflexivity | ].
  inversion Hall as [| ? ? Hop Hall']; subst.
  simpl. unfold bind. rewrite (body_and _ _ _ Hi Hop), Ha.
  apply IH; [ lia | assumption | assumption ].
Qed.

(** While every rule fails, a run of OR steps calls each of them and appends
    what it returns. *)
Lemma loop_or_all_fail l : forall i a w rs w',
  Forall (fun s => op s = opOr) l ->
  accValid a = false ->
  invoke_all l w = Some (rs, w') ->
  Forall (fun res => IsValid res = false) rs ->
  loop i l a w =
  Some ({| accValid := false;
           messages := messages a ++ List.concat (map Message rs) |}, w').
Proof.
  induction l as [| s l IH]; intros i a w rs w' Hall Ha Hinv Hrs.
  - injection Hinv as <- <-. simpl. rewrite app_nil_r.
    destruct a as [v ms]. simpl in Ha. now subst.
  - inversion Hall as [| ? ? Hop Hall']; subst.
    simpl in Hinv. apply bind_inv in Hinv as (res & w1 & Hv & Hinv).
    apply bind_inv in Hinv as (rs' & w2 & Hinv & Hret).
    injection Hret as <- <-.
    inversion Hrs as [| ? ? Hres Hrs']; subst.
    simpl. unfold bind.
    assert (Hb : body i s a w =
                 Some ({| accValid := false;
                          messages := messages a ++ Message res |}, w1)).
    { destruct (Nat.eq_dec i 0) as [-> | Hi].
      - now rewrite body_first, Hv, Hres.
      - now rewrite (body_or _ _ _ Hi Hop), Ha, Hv, Hres. }
    rewrite Hb.
    rewrite (IH (S i) {| accValid := false;
                         messages := messages a ++ Message res |}
               w1 rs' w2 Hall' eq_refl Hinv Hrs'). simpl.
    now rewrite app_assoc.
Qed.

End LoopFacts.


(** ** The empty chain and the first step *)

(** C6: [Validate] on a chain without steps returns
    [{IsValid: true, Message: []}] at once: the world is the one it was
    called in, and the call log of the instrumented chain receives no
    entry. *)
Theorem Validate_empty_chain :
  forall (W : Type) (w : W) (log : list Event),
    Validate (@New W) w = Some ({| IsValid := true; Message := [] |}, w)
    /\ Validate (instrument (@New W)) (w, log)
       = Some ({| IsValid := true; Message := [] |}, (w, log)).
Proof. intros W w log. split; reflexivity. Qed.

(** C5: in a chain that has a step, the rule of the first step is called
    whatever the tag [o] of the step: the loop goes on from the accumulator
    seeded with the validity the rule returned and, when it failed, with its
    messages; a panic of the rule is a panic of the chain. A chain of one
    step tagged OR calls its rule (the log has the call) and returns what the
    rule decided. *)
Theorem first_step_always_runs :
  forall (W : Type) (v : Validator W) (o : logicalOp)
         (rest : list (chainedStep W)) (w : W) (log : list Event),
    loop 0 ({| validator := v; op := o |} :: rest) acc0 w
    = match v w with
      | Some (res, w') =>
          loop 1 rest
               {| accValid := IsValid res;
                  messages := if IsValid res then [] else Message res |} w'
      | None => None
      end
    /\ Validate {| steps := {| validator := v; op := o |} :: rest |} w
       = Validate {| steps := {| validator := v; op := opAnd |} :: rest |} w
    /\ Validate (instrument (Or New v)) (w, log)
       = match v w with
         | Some (res, w') =>
             Some (if IsValid res then Success else Fail (Message res),
                   (w', log ++ [(0, res)]))
         | None => None
         end.
Proof.
  intros W v o rest w log. split; [ | split ].
  - cbn [loop]. unfold bind. rewrite body_first. cbn [validator].
    now destruct (v w) as [[res w'] |].
  - reflexivity.
  - unfold Validate, instrument, Or, New. cbn. unfold bind, logged. cbn.
    destruct (v w) as [[res w'] |]; [ | reflexivity ].
    cbn. rewrite collect_failure_eq.
    destruct res as [[|] ms]; reflexivity.
Qed.

(** ** Message policy *)

(** C4: a result of [Validate] that is valid carries no message; and the
    message list the loop had accumulated when it ended was empty as well,
    so the passing result drops no failure text. *)
Theorem valid_result_has_no_messages :
  forall (W : Type) (f : FluentValidator W) (w w' : W) (r : ValidationResult),
    Validate f w = Some (r, w') ->
    IsValid r = true ->
    Message r = []
    /\ (forall (a : acc) (w1 : W),
           loop 0 (steps f) acc0 w = Some (a, w1) -> messages a = []).
Proof.
  intros W [l] w w' r Hv Hr. cbn [steps]. destruct l as [| s l].
  - injection Hv as <- <-. split; [ reflexivity | ].
    intros a w1 Hl. now injection Hl as <- <-.
  - rewrite Validate_nonempty in Hv by discriminate.
    destruct (loop 0 (s :: l) acc0 w) as [[a0 w0] |] eqn:Hloop;
      [ | discriminate ].
    destruct (accValid a0) eqn:Ha0; injection Hv as <- <-;
      [ | discriminate ].
    split; [ reflexivity | ].
    intros a w1 Hl. injection Hl as <- <-.
    exact (passing_accumulator_has_no_messages _ _ Hloop Ha0).
Qed.

(** C1: when the accumulator is false after the steps [pre] and the next
    step is an OR step whose rule passes, the loop goes on with a true
    accumulator and an empty message list, whatever [pre] had collected; if
    the step is the last one the chain is valid. The chain
    AND(pass), AND(fail x), OR(pass) holds the message of the AND failure
    before its OR step and evaluates to [{IsValid: true, Message: []}]. *)
Theorem or_success_clears_all_messages :
  (forall (W : Type) (pre : list (chainedStep W)) (s : chainedStep W)
          (a : acc) (w0 w w' : W) (res : ValidationResult),
      loop 0 pre acc0 w0 = Some (a, w) ->
      accValid a = false ->
      op s = opOr ->
      validator s w = Some (res, w') ->
      IsValid res = true ->
      loop 0 (pre ++ [s]) acc0 w0
      = Some ({| accValid := true; messages := [] |}, w')
      /\ Validate {| steps := pre ++ [s] |} w0
         = Some ({| IsValid := true; Message := [] |}, w'))
  /\ (forall (W : Type) (w : W),
         loop 0 (steps (And (And New passRule) (failMsg "x"))) acc0 w
         = Some ({| accValid := false; messages := ["x"] |}, w)
         /\ Validate (Or (And (And New passRule) (failMsg "x")) passRule) w
            = Some ({| IsValid := true; Message := [] |}, w)).
Proof.
  split; [ | intros W w; split; reflexivity ].
  intros W pre s a w0 w w' res Hpre Ha Hop Hv Hres.
  assert (Hloop : loop 0 (pre ++ [s]) acc0 w0
                  = Some ({| accValid := true; messages := [] |}, w')).
  { rewrite loop_snoc, Hpre. destruct pre as [| s0 pre].
    - injection Hpre as <- <-. simpl. now rewrite body_first, Hv, Hres.
    - rewrite body_or by (simpl; lia || assumption).
      now rewrite Ha, Hv, Hres. }
  split; [ exact Hloop | ].
  rewrite Validate_nonempty by (now destruct pre).
  now rewrite Hloop.
Qed.

Lemma or_success_clears_all_messages_witness :
  Validate (W := unit)
    {| steps := [ {| validator := failMsg "a"; op := opOr |};
                  {| validator := failMsg "b"; op := opOr |} ]
                ++ [ {| validator := passRule; op := opOr |} ] |} tt
  = Some ({| IsValid := true; Message := [] |}, tt).
Proof.
  refine (proj2 (proj1 or_success_clears_all_messages unit _ _
                   {| accValid := false; messages := ["a"; "b"] |}
                   tt tt tt Success _ _ _ _ _));
    reflexivity.
Defined.

(** C2: once the accumulator is false, the AND steps that follow (the loop
    is past the first step) leave the accumulator, the messages and the
    world as they are, whatever their rules would do: none is called. So a
    chain whose first rule fails and whose other steps are AND steps returns
    the messages of that first failure only. The instrumented chain
    AND(fail e1), AND(fail e2), AND(fail e3) returns
    [{IsValid: false, Message: [e1]}] and logs the call of step 0 alone. *)
Theorem and_short_circuit_reports_first_failure :
  (forall (W : Type) (l : list (chainedStep W)) (i : nat) (a : acc) (w : W),
      i <> 0 ->
      Forall (fun s => op s = opAnd) l ->
      accValid a = false ->
      loop i l a w = Some (a, w))
  /\ (forall (W : Type) (s : chainedStep W) (rest : list (chainedStep W))
             (w w' : W) (res : ValidationResult),
         Forall (fun s => op s = opAnd) rest ->
         validator s w = Some (res, w') ->
         IsValid res = false ->
         Validate {| steps := s :: rest |} w
         = Some ({| IsValid := false; Message := Message res |}, w'))
  /\ (forall (W : Type) (w : W),
         Validate
           (instrument
              (And (And (And New (failMsg "e1")) (failMsg "e2")) (failMsg "e3")))
           (w, [])
         = Some ({| IsValid := false; Message := ["e1"] |},
                 (w, [(0, Fail ["e1"])]))).
Proof.
  split; [ | split ].
  - intros W l i a w. apply loop_and_skipped.
  - intros W s rest w w' res Hall Hv Hres.
    rewrite Validate_nonempty by discriminate.
    cbn [loop]. unfold bind. rewrite body_first, Hv, Hres. cbn [messages app].
    now rewrite loop_and_skipped by (auto; lia).
  - intros W w. reflexivity.
Qed.

Lemma and_short_circuit_reports_first_failure_witness :
  Validate (W := unit)
    {| steps := [ {| validator := failMsg "e1"; op := opAnd |};
                  {| validator := panic; op := opAnd |} ] |} tt
  = Some ({| IsValid := false; Message := ["e1"] |}, tt).
Proof.
  refine (proj1 (proj2 and_short_circuit_reports_first_failure) unit _ _
                tt tt (Fail ["e1"]) _ _ _).
  - repeat constructor.
  - reflexivity.
  - reflexivity.
Defined.

Lemma valid_result_has_no_messages_witness :
  Message Success = []
  /\ (forall (a : acc) (w1 : unit),
         loop 0 (steps (Or (Or New (failMsg "a")) passRule)) acc0 tt
         = Some (a, w1) ->
         messages a = []).
Proof.
  refine (@valid_result_has_no_messages unit
            (Or (Or New (failMsg "a")) passRule) tt tt Success _ _);
    reflexivity.
Defined.

(** ** The instrumented chain *)

Lemma instrument_from_length {W : Type} (l : list (chainedStep W)) :
  forall i, List.length (instrument_from i l) = List.length l.
Proof. induction l as [| s l IH]; intros i; simpl; [ | rewrite IH ]; reflexivity. Qed.

Lemma instrument_from_op {W : Type} (o : logicalOp) (l : list (chainedStep W)) :
  forall i,
    Forall (fun s => op s = o) l ->
    Forall (fun s => op s = o) (instrument_from i l).
Proof.
  induction l as [| s l IH]; intros i Hall; simpl; [ constructor | ].
  inversion Hall as [| ? ? Hs Hl]. constructor; [ exact Hs | now apply IH ].
Qed.

(** Calling every rule of the instrumented list logs every step, in order,
    with what its rule returned. *)
Lemma invoke_all_instrument {W : Type} (l : list (chainedStep W)) :
  forall i w log,
    invoke_all (instrument_from i l) (w, log)
    = match invoke_all l w with
      | Some (rs, w') =>
          Some (rs, (w', log ++ combine (seq i (List.length l)) rs))
      | None => None
      end.
Proof.
  induction l as [| s l IH]; intros i w log; simpl.
  - unfold ret. now rewrite app_nil_r.
  - unfold bind, logged. simpl.
    destruct (validator s w) as [[res w1] |]; [ | reflexivity ].
    rewrite IH. destruct (invoke_all l w1) as [[rs w2] |]; [ | reflexivity ].
    unfold ret. simpl. now rewrite <- app_assoc.
Qed.

Lemma Validate_or_all_fail {W : Type} (l : list (chainedStep W)) w w' rs :
  Forall (fun s => op s = opOr) l ->
  invoke_all l w = Some (rs, w') ->
  Forall (fun res => IsValid res = false) rs ->
  Validate {| steps := l |} w
  = Some ({| IsValid := (List.length l =? 0)%nat;
             Message := List.concat (map Message rs) |}, w').
Proof.
  intros Hall Hinv Hrs. destruct l as [| s l].
  - injection Hinv as <- <-. reflexivity.
  - rewrite Validate_nonempty by discriminate.
    now rewrite (@loop_or_all_fail W (s :: l) 0 acc0 w rs w'
                   Hall eq_refl Hinv Hrs).
Qed.

(** C3: in a chain of OR steps, when every rule, called in order, returns a
    failure, [Validate] ends in the world reached by calling them all and
    its messages are the messages of all the failures, in the order of the
    steps (the result is invalid as soon as the chain has a step); the log of
    the instrumented chain lists every step with its failure. The chain
    OR(fail a), OR(fail b) evaluates to [{IsValid: false, Message: [a, b]}],
    both rules called. *)
Theorem or_chain_collects_every_failure :
  (forall (W : Type) (l : list (chainedStep W)) (w w' : W)
          (rs : list ValidationResult),
      Forall (fun s => op s = opOr) l ->
      invoke_all l w = Some (rs, w') ->
      Forall (fun res => IsValid res = false) rs ->
      Validate {| steps := l |} w
      = Some ({| IsValid := (List.length l =? 0)%nat;
                 Message := List.concat (map Message rs) |}, w')
      /\ Validate (instrument {| steps := l |}) (w, [])
         = Some ({| IsValid := (List.length l =? 0)%nat;
                    Message := List.concat (map Message rs) |},
                 (w', combine (seq 0 (List.length l)) rs)))
  /\ (forall (W : Type) (w : W),
         Validate (instrument (Or (Or New (failMsg "a")) (failMsg "b"))) (w, [])
         = Some ({| IsValid := false; Message := ["a"; "b"] |},
                 (w, [(0, Fail ["a"]); (1, Fail ["b"])]))).
Proof.
  split; [ | intros W w; reflexivity ].
  intros W l w w' rs Hall Hinv Hrs. split.
  - now apply Validate_or_all_fail.
  - unfold instrument. cbn [steps].
    rewrite <- (instrument_from_length l 0) at 1.
    apply Validate_or_all_fail; [ now apply instrument_from_op | | exact Hrs ].
    now rewrite invoke_all_instrument, Hinv.
Qed.

Lemma or_chain_collects_every_failure_witness :
  Validate (W := unit)
    {| steps := [ {| validator := failMsg "a"; op := opOr |};
                  {| validator := const_rule (Fail []); op := opOr |};
                  {| validator := const_rule (Fail ["b"; "c"]); op := opOr |} ] |}
    tt
  = Some ({| IsValid := false; Message := ["a"; "b"; "c"] |}, tt).
Proof.
  refine (proj1 (proj1 or_chain_collects_every_failure unit _ tt tt
                   [Fail ["a"]; Fail []; Fail ["b"; "c"]] _ _ _)).
  - repeat constructor.
  - reflexivity.
  - repeat constructor.
Defined.

(** ** The numeric rules and a zero divisor *)

(** C9: for every integer [v], [IntMultipleOf(v, 0)] returns, without a
    panic, a result that is invalid and whose messages are exactly
    "must be a multiple of 0" (no call of [IntMultipleOf] panics: the
    remainder is only taken by a divisor that is not zero); for every float
    [fv], [FloatMultipleOf(fv, 0)], for the divisor [0] as for [-0], returns
    a result that is invalid and whose messages are exactly
    "must be a multiple of 0 is undefined"; the messages of the two results
    differ. *)
Theorem multiple_of_zero_is_a_failure_value :
  forall (W : Type) (FormatFloat : float -> string) (unrep : float -> Z)
         (v : Z) (fv : float) (w : W),
    exists ri rf rf' : ValidationResult,
      IntMultipleOf v 0 w = Some (ri, w)
      /\ IsValid ri = false
      /\ Message ri = ["must be a multiple of 0"]
      /\ FloatMultipleOf FormatFloat unrep fv 0 w = Some (rf, w)
      /\ IsValid rf = false
      /\ Message rf = ["must be a multiple of 0 is undefined"]
      /\ FloatMultipleOf FormatFloat unrep fv (-0) w = Some (rf', w)
      /\ IsValid rf' = false
      /\ Message rf' = ["must be a multiple of 0 is undefined"]
      /\ Message ri <> Message rf
      /\ Message ri <> Message rf'
      /\ (forall m : Z,
             exists r : ValidationResult, IntMultipleOf v m w = Some (r, w)).
Proof.
  intros W FormatFloat unrep v fv w.
  exists {| IsValid := false; Message := ["must be a multiple of 0"] |},
    {| IsValid := false; Message := ["must be a multiple of 0 is undefined"] |},
    {| IsValid := false; Message := ["must be a multiple of 0 is undefined"] |}.
  split; [ reflexivity | ]. split; [ reflexivity | ].
  split; [ reflexivity | ]. split; [ reflexivity | ].
  split; [ reflexivity | ]. split; [ reflexivity | ].
  split; [ reflexivity | ]. split; [ reflexivity | ].
  split; [ reflexivity | ]. split; [ discriminate | ].
  split; [ discriminate | ].
  intros m. unfold IntMultipleOf, go_rem, bind, ret, panic.
  destruct (m =? 0)%Z.
  - eexists; reflexivity.
  - destruct (negb (Z.rem v m =? 0)%Z); eexists; reflexivity.
Qed.

(** ** The accumulator as a two-state machine *)

Lemma state_of_accValid (a : acc) :
  (state_of a = PASSING <-> accValid a = true)
  /\ (state_of a = FAILING <-> accValid a = false).
Proof. unfold state_of. destruct (accValid a); repeat split; congruence. Qed.

(** The transitions of one iteration after the first. *)
Lemma body_transitions {W : Type} (i : nat) (s : chainedStep W) (a : acc) (w : W) :
  i <> 0 ->
  (op s = opAnd ->
   (state_of a = FAILING -> body i s a w = Some (a, w))
   /\ (forall a' w', body i s a w = Some (a', w') ->
                     (state_of a = PASSING /\ state_of a' = FAILING)
                     \/ state_of a' = state_of a))
  /\ (op s = opOr ->
      (state_of a = PASSING -> body i s a w = Some (a, w))
      /\ (forall a' w', body i s a w = Some (a', w') ->
                        (state_of a = FAILING /\ state_of a' = PASSING)
                        \/ state_of a' = state_of a)).
Proof.
  intros Hi. split; intros Hop.
  - rewrite (body_and _ _ _ Hi Hop). unfold state_of.
    destruct (accValid a) eqn:Ha; split; try discriminate; try reflexivity.
    + intros a' w' Hb.
      destruct (validator s w) as [[res w1] |]; [ | discriminate ].
      injection Hb as <- <-. simpl. destruct (IsValid res); auto.
    + intros a' w' Hb. injection Hb as <- <-. right. now rewrite Ha.
  - rewrite (body_or _ _ _ Hi Hop). unfold state_of.
    destruct (accValid a) eqn:Ha; split; try discriminate; try reflexivity.
    + intros a' w' Hb. injection Hb as <- <-. right. now rewrite Ha.
    + intros a' w' Hb.
      destruct (validator s w) as [[res w1] |]; [ | discriminate ].
      injection Hb as <- <-. simpl. destruct (IsValid res); auto.
Qed.

(** C8: let [a] be the accumulator after the steps [pre] of a chain, at
    least one, and [s] the step that follows. If [s] is an AND step and the
    state is FAILING, the loop goes on from the same accumulator, messages
    and world (the rule of [s], whatever it is, is not called); and whenever
    the AND step ends, the state either went from PASSING to FAILING or did
    not change. If [s] is an OR step, the same holds with PASSING and FAILING
    exchanged. *)
Theorem accumulator_state_machine :
  forall (W : Type) (pre : list (chainedStep W)) (s : chainedStep W)
         (w0 w : W) (a : acc),
    pre <> [] ->
    loop 0 pre acc0 w0 = Some (a, w) ->
    (op s = opAnd ->
     (state_of a = FAILING -> loop 0 (pre ++ [s]) acc0 w0 = Some (a, w))
     /\ (forall a' w', loop 0 (pre ++ [s]) acc0 w0 = Some (a', w') ->
                       (state_of a = PASSING /\ state_of a' = FAILING)
                       \/ state_of a' = state_of a))
    /\ (op s = opOr ->
        (state_of a = PASSING -> loop 0 (pre ++ [s]) acc0 w0 = Some (a, w))
        /\ (forall a' w', loop 0 (pre ++ [s]) acc0 w0 = Some (a', w') ->
                          (state_of a = FAILING /\ state_of a' = PASSING)
                          \/ state_of a' = state_of a)).
Proof.
  intros W pre s w0 w a Hpre Hloop.
  rewrite loop_snoc, Hloop.
  apply body_transitions.
  destruct pre; [ contradiction | simpl; lia ].
Qed.

Lemma accumulator_state_machine_witness :
  loop (W := nat) 0
       ([ {| validator := countingFail "e1"; op := opAnd |} ]
          ++ [ {| validator := countingFail "e2"; op := opAnd |} ]) acc0 0
  = Some ({| accValid := false; messages := ["e1"] |}, 1).
Proof.
  refine (proj1 (proj1 (@accumulator_state_machine nat
                          [ {| validator := countingFail "e1"; op := opAnd |} ]
                          {| validator := countingFail "e2"; op := opAnd |}
                          0 1 {| accValid := false; messages := ["e1"] |}
                          _ _) _) _).
  - discriminate.
  - reflexivity.
  - reflexivity.
  - reflexivity.
Defined.

(** ** Evaluating a chain twice *)

Section Determinism.

Context {W : Type}.

(** A deterministic rule that returns in one world returns the same result
    in every world. *)
Lemma deterministic_returns (v : Validator W) w1 w1' res :
  deterministic v ->
  v w1 = Some (res, w1') ->
  forall w2, exists w2', v w2 = Some (res, w2').
Proof.
  intros Hdet Hv w2. specialize (Hdet w1 w2). rewrite Hv in Hdet.
  destruct (v w2) as [[res2 w2'] |]; simpl in Hdet; [ | discriminate ].
  injection Hdet as <-. now exists w2'.
Qed.

(** From a given accumulator, a loop over deterministic rules that ends in
    one world ends in every world, with the same accumulator, and calls the
    same steps with the same results: the instrumented loop appends the same
    entries [calls] to any log. *)
Lemma loop_deterministic (l : list (chainedStep W)) :
  Forall (fun s => deterministic (validator s)) l ->
  forall k i a w1 a' w1',
    loop i l a w1 = Some (a', w1') ->
    exists calls : list Event,
      forall w2, exists w2',
        loop i l a w2 = Some (a', w2')
        /\ forall log,
            loop i (instrument_from k l) a (w2, log)
            = Some (a', (w2', log ++ calls)).
Proof.
  induction 1 as [| s l Hs Hl IH]; intros k i a w1 a' w1' Hloop.
  - injection Hloop as <- <-. exists []. intros w2. exists w2.
    split; [ reflexivity | ]. intros log. simpl. unfold ret.
    now rewrite app_nil_r.
  - simpl in Hloop. apply bind_inv in Hloop as (a1 & w1m & Hb & Hloop).
    destruct (IH (S k) (S i) a1 w1m a' w1' Hloop) as (calls & Hcalls).
    rewrite body_split in Hb.
    destruct (invokes i (op s) a) eqn:Hinv.
    + destruct (validator s w1) as [[res w1v] |] eqn:Hv; [ | discriminate ].
      injection Hb as <- <-.
      exists ((k, res) :: calls). intros w2.
      destruct (@deterministic_returns (validator s) w1 w1v res Hs Hv w2)
        as (w2m & Hv2).
      destruct (Hcalls w2m) as (w2' & Hl2 & Hlog).
      exists w2'. split.
      * simpl. unfold bind. now rewrite body_split, Hinv, Hv2.
      * intros log. simpl. unfold bind. rewrite body_split. simpl.
        rewrite Hinv. unfold logged. simpl. rewrite Hv2.
        rewrite Hlog. now rewrite <- app_assoc.
    + injection Hb as <- <-.
      exists calls. intros w2.
      destruct (Hcalls w2) as (w2' & Hl2 & Hlog).
      exists w2'. split.
      * simpl. unfold bind. now rewrite body_split, Hinv.
      * intros log. simpl. unfold bind. rewrite body_split. simpl.
        rewrite Hinv. apply Hlog.
Qed.

End Determinism.

(** C7: on a chain whose rules are deterministic (the outcome of a rule does
    not depend on the world it is called in), a call of [Validate] that
    returns [r] can be followed by a second call on the same chain, in the
    world the first one left, and the second call returns [r] as well. Both
    calls run the loop on the same steps and call the rules again: on the
    instrumented chain the second call appends to the log the very entries
    [calls] the first one wrote. *)
Theorem Validate_twice_same_result :
  forall (W : Type) (f : FluentValidator W) (w w1 : W) (r : ValidationResult),
    Forall (fun s => deterministic (validator s)) (steps f) ->
    Validate f w = Some (r, w1) ->
    (exists w2, Validate f w1 = Some (r, w2))
    /\ (exists (calls : list Event) (w2 : W),
           Validate (instrument f) (w, []) = Some (r, (w1, calls))
           /\ Validate (instrument f) (w1, calls)
              = Some (r, (w2, calls ++ calls))).
Proof.
  intros W [l] w w1 r Hdet Hv. cbn [steps] in Hdet.
  destruct l as [| s l].
  - injection Hv as <- <-. split.
    + now exists w.
    + exists [], w. split; reflexivity.
  - rewrite Validate_nonempty in Hv by discriminate.
    destruct (loop 0 (s :: l) acc0 w) as [[a wa] |] eqn:Hloop; [ | discriminate ].
    injection Hv as <- <-.
    destruct (loop_deterministic Hdet 0 _ _ _ Hloop) as (calls & Hcalls).
    destruct (Hcalls w) as (wa' & Hl1 & Hlog1).
    rewrite Hloop in Hl1. injection Hl1 as <-.
    destruct (Hcalls wa) as (w2 & Hl2 & Hlog2).
    split.
    + exists w2. rewrite Validate_nonempty by discriminate. now rewrite Hl2.
    + exists calls, w2. unfold instrument. cbn [steps]. split.
      * rewrite Validate_nonempty by discriminate.
        now rewrite Hlog1.
      * rewrite Validate_nonempty by discriminate.
        now rewrite Hlog2.
Qed.

Lemma Validate_twice_same_result_witness :
  (exists w2,
      Validate (Or (And New (countingFail "e1")) (countingFail "e2")) 2
      = Some (Fail ["e1"; "e2"], w2))
  /\ (exists (calls : list Event) (w2 : nat),
         Validate (instrument (Or (And New (countingFail "e1"))
                                  (countingFail "e2"))) (0, [])
         = Some (Fail ["e1"; "e2"], (2, calls))
         /\ Validate (instrument (Or (And New (countingFail "e1"))
                                     (countingFail "e2"))) (2, calls)
            = Some (Fail ["e1"; "e2"], (w2, calls ++ calls))).
Proof.
  refine (@Validate_twice_same_result nat
            (Or (And New (countingFail "e1")) (countingFail "e2"))
            0 2 (Fail ["e1"; "e2"]) _ _).
  - repeat constructor.
  - reflexivity.
Defined.

(** ** Where the messages of a result come from *)

Lemma from_failures_nil (log : list Event) : from_failures log [].
Proof. intros m []. Qed.

Lemma from_failures_log_app (log extra : list Event) (ms : list string) :
  from_failures log ms -> from_failures (log ++ extra) ms.
Proof.
  intros H m Hm. destruct (H m Hm) as (i & res & Hin & Hres & Hmsg).
  exists i, res. repeat split; auto. apply in_or_app. now left.
Qed.

Lemma from_failures_absorb (log : list Event) (k i : nat) (o : logicalOp)
      (a : acc) (res : ValidationResult) :
  from_failures log (messages a) ->
  from_failures (log ++ [(k, res)]) (messages (absorb i o a res)).
Proof.
  intros H. unfold absorb. cbn [messages].
  destruct (IsValid res) eqn:Hres.
  - destruct (i =? 0)%nat; [ now apply from_failures_log_app | ].
    destruct o; [ now apply from_failures_log_app | apply from_failures_nil ].
  - intros m Hm. apply in_app_or in Hm as [Hm | Hm].
    + exact (from_failures_log_app [(k, res)] H m Hm).
    + exists k, res. repeat split; auto. apply in_or_app. right. now left.
Qed.

(** The invariant of the instrumented loop: the accumulated messages are
    messages of logged failures. *)
Lemma loop_messages_from_failures {W : Type} (l : list (chainedStep W)) :
  forall k i a w log a' w' log',
    loop i (instrument_from k l) a (w, log) = Some (a', (w', log')) ->
    from_failures log (messages a) ->
    from_failures log' (messages a').
Proof.
  induction l as [| s l IH]; intros k i a w log a' w' log' Hloop Hinv.
  - injection Hloop as <- <- <-. exact Hinv.
  - simpl in Hloop. apply bind_inv in Hloop as (a1 & [w1 log1] & Hb & Hloop).
    refine (IH (S k) (S i) a1 w1 log1 a' w' log' Hloop _).
    rewrite body_split in Hb. cbn [op validator] in Hb.
    destruct (invokes i (op s) a).
    + unfold logged in Hb. cbn [fst snd] in Hb.
      destruct (validator s w) as [[res wv] |]; [ | discriminate ].
      injection Hb as <- <- <-. now apply from_failures_absorb.
    + injection Hb as <- <- <-. exact Hinv.
Qed.

(** C10: every message of the result of [Validate] is a message of a rule
    call, recorded in the log of the instrumented chain, that returned an
    invalid result. Within one iteration, a rule that passes adds nothing to
    the message list (the list is left as it is or emptied), and so does a
    rule that fails without a message. A passing rule that carries a message
    list does not show in the output of its chain, before or after a
    failure, and a chain whose only failure has no message is invalid with
    an empty message list. *)
Theorem messages_come_from_failed_calls :
  (forall (W : Type) (f : FluentValidator W) (w w' : W)
          (r : ValidationResult) (log : list Event),
      Validate (instrument f) (w, []) = Some (r, (w', log)) ->
      forall m : string,
        In m (Message r) ->
        exists (i : nat) (res : ValidationResult),
          In (i, res) log /\ IsValid res = false /\ In m (Message res))
  /\ (forall (W : Type) (i : nat) (s : chainedStep W) (a a' : acc)
             (w w1 w' : W) (res : ValidationResult),
         validator s w = Some (res, w1) ->
         body i s a w = Some (a', w') ->
         (IsValid res = true -> messages a' = messages a \/ messages a' = [])
         /\ (IsValid res = false -> Message res = [] ->
             messages a' = messages a))
  /\ (forall (W : Type) (w : W) (ms : list string),
         Validate (And New (const_rule {| IsValid := true; Message := ms |})) w
         = Some ({| IsValid := true; Message := [] |}, w)
         /\ Validate (And (And New
                             (const_rule {| IsValid := true; Message := ms |}))
                          (failMsg "x")) w
            = Some ({| IsValid := false; Message := ["x"] |}, w)
         /\ Validate (Or (And New (failMsg "x"))
                         (const_rule {| IsValid := true; Message := ms |})) w
            = Some ({| IsValid := true; Message := [] |}, w))
  /\ (forall (W : Type) (w : W),
         Validate (And New (const_rule (Fail []))) w
         = Some ({| IsValid := false; Message := [] |}, w)).
Proof.
  split; [ | split; [ | split ] ].
  - intros W [l] w w' r log Hv. unfold Validate, instrument in Hv.
    cbn [steps] in Hv.
    destruct (List.length (instrument_from 0 l) =? 0)%nat.
    + injection Hv as <- <- <-. intros m [].
    + apply bind_inv in Hv as (a & [w1 log1] & Hloop & Hv).
      pose proof (@loop_messages_from_failures W l 0 0 acc0 w [] a w1 log1
                    Hloop (from_failures_nil [])) as Hinv.
      destruct (accValid a); injection Hv as <- <- <-.
      * intros m [].
      * exact Hinv.
  - intros W i s a a' w w1 w' res Hv Hb. rewrite body_split, Hv in Hb.
    destruct (invokes i (op s) a).
    + injection Hb as <- <-. unfold absorb. cbn [messages]. split.
      * intros ->. destruct (i =? 0)%nat; [ now left | ].
        destruct (op s); [ now left | now right ].
      * intros -> ->. apply app_nil_r.
    + injection Hb as <- <-. split; auto.
  - intros W w ms. repeat split; reflexivity.
  - intros W w. reflexivity.
Qed.

Lemma messages_come_from_failed_calls_witness :
  exists (i : nat) (res : ValidationResult),
    In (i, res) [(0, Fail ["e1"]); (1, Fail ["e2"])]
    /\ IsValid res = false /\ In "e2" (Message res).
Proof.
  refine (proj1 messages_come_from_failed_calls nat
                (Or (And New (countingFail "e1")) (countingFail "e2"))
                0 2 (Fail ["e1"; "e2"]) _ _ "e2" _).
  - reflexivity.
  - simpl. auto.
Defined.

(** * Further properties of the engine *)

Section Composition.

Context {W : Type}.
Implicit Types (l pre rest : list (chainedStep W)) (s : chainedStep W).
Implicit Types (a : acc) (w : W) (res r : ValidationResult).
Implicit Types (f : FluentValidator W) (v : Validator W).

Lemma Validate_result_of l w :
  l <> [] ->
  Validate {| steps := l |} w =
  match loop 0 l acc0 w with
  | Some (a, w') => Some (result_of a, w')
  | None => None
  end.
Proof. intros Hl. now rewrite Validate_nonempty. Qed.

(** The result of a chain tells the accumulator its loop ended with. *)
Lemma result_of_acc l w a w' :
  loop 0 l acc0 w = Some (a, w') ->
  accValid a = IsValid (result_of a)
  /\ messages a = Message (result_of a).
Proof.
  intros Hl. unfold result_of. destruct (accValid a) eqn:Ha; simpl.
  - split; [ reflexivity | ].
    exact (passing_accumulator_has_no_messages _ _ Hl Ha).
  - now split.
Qed.

(** What appending one step does to a chain that has a step already. *)
Lemma Validate_snoc l s w :
  l <> [] ->
  Validate {| steps := l ++ [s] |} w =
  match loop 0 l acc0 w with
  | Some (a, w1) =>
      match body (List.length l) s a w1 with
      | Some (a', w2) => Some (result_of a', w2)
      | None => None
      end
  | None => None
  end.
Proof.
  intros Hl. rewrite Validate_result_of by (now destruct l).
  rewrite loop_snoc. now destruct (loop 0 l acc0 w) as [[a w1] |].
Qed.

End Composition.

(** X1: [And] on any chain, empty or not: the new chain evaluates the old
    one; if that is invalid the result is unchanged and the new rule is not
    called; if it is valid the new rule is called and decides, a failure
    reporting the messages of the new rule alone. *)
Theorem And_extends_chain :
  forall (W : Type) (f : FluentValidator W) (v : Validator W) (w : W),
    Validate (And f v) w =
    match Validate f w with
    | Some (r, w1) =>
        if IsValid r then
          match v w1 with
          | Some (res, w2) =>
              Some (if IsValid res then Success
                    else {| IsValid := false; Message := Message res |}, w2)
          | None => None
          end
        else Some (r, w1)
    | None => None
    end.
Proof.
  intros W [l] v w. unfold And. cbn [steps].
  destruct l as [| s0 l0] eqn:El.
  - cbn [app]. rewrite Validate_nonempty by discriminate.
    cbn [loop]. unfold bind. rewrite body_first. cbn [validator].
    change (Validate {| steps := [] |} w) with (Some (Success, w)).
    cbn [IsValid Success].
    destruct (v w) as [[res w2] |]; [ | reflexivity ].
    cbn. now destruct (IsValid res).
  - rewrite <- El. assert (Hl : l <> []) by (rewrite El; discriminate).
    clear El. rewrite Validate_snoc by assumption.
    rewrite Validate_result_of by assumption.
    destruct (loop 0 l acc0 w) as [[a w1] |] eqn:Hloop; [ | reflexivity ].
    assert (Hlen : List.length l <> 0)
      by (destruct l; [ contradiction | discriminate ]).
    rewrite (@body_and W (List.length l) {| validator := v; op := opAnd |}
               a w1 Hlen eq_refl).
    cbn [validator].
    pose proof (passing_accumulator_has_no_messages _ _ Hloop) as Hinv.
    unfold result_of.
    destruct (accValid a) eqn:Ha; cbn [IsValid Success]; [ | now rewrite Ha ].
    rewrite (Hinv eq_refl).
    destruct (v w1) as [[res w2] |]; [ | reflexivity ].
    cbn [accValid messages Message]. now destruct (IsValid res).
Qed.

(** X2: [Or] on a chain that has a step: the new chain evaluates the old
    one; if that is valid the result is unchanged and the new rule is not
    called; if it is invalid the new rule is called: when it passes the
    chain is valid and all messages are dropped, when it fails its messages
    are appended to those of the old chain. *)
Theorem Or_extends_chain :
  forall (W : Type) (f : FluentValidator W) (v : Validator W) (w : W),
    steps f <> [] ->
    Validate (Or f v) w =
    match Validate f w with
    | Some (r, w1) =>
        if IsValid r then Some (r, w1)
        else
          match v w1 with
          | Some (res, w2) =>
              Some (if IsValid res then Success
                    else {| IsValid := false;
                            Message := Message r ++ Message res |}, w2)
          | None => None
          end
    | None => None
    end.
Proof.
  intros W [l] v w Hl. cbn [steps] in Hl. unfold Or. cbn [steps].
  rewrite Validate_snoc by assumption.
  rewrite Validate_result_of by assumption.
  destruct (loop 0 l acc0 w) as [[a w1] |] eqn:Hloop; [ | reflexivity ].
  assert (Hlen : List.length l <> 0) by (destruct l; [ contradiction | discriminate ]).
  rewrite (@body_or W (List.length l) {| validator := v; op := opOr |} a w1
             Hlen eq_refl).
  cbn [validator]. unfold result_of.
  destruct (accValid a) eqn:Ha; cbn [IsValid Success]; [ now rewrite Ha | ].
  destruct (v w1) as [[res w2] |]; [ | reflexivity ].
  cbn [accValid messages Message]. now destruct (IsValid res).
Qed.

Lemma Or_extends_chain_witness :
  Validate (W := nat)
           (Or (And New (countingFail "e1")) (countingFail "e2")) 0
  = Some ({| IsValid := false; Message := ["e1"; "e2"] |}, 2).
Proof.
  rewrite (@Or_extends_chain nat (And New (countingFail "e1"))
             (countingFail "e2") 0).
  - reflexivity.
  - discriminate.
Defined.

(** ** Chains of one operator *)

Section Runs.

Context {W : Type}.
Implicit Types (l pre rest : list (chainedStep W)) (s : chainedStep W).
Implicit Types (a : acc) (w : W) (res r : ValidationResult).

(** Once the accumulator is true, a run of OR steps leaves everything as it
    is. *)
Lemma loop_or_skipped l : forall i a w,
  i <> 0 ->
  Forall (fun s => op s = opOr) l ->
  accValid a = true ->
  loop i l a w = Some (a, w).
Proof.
  induction l as [| s l IH]; intros i a w Hi Hall Ha; [ reflexivity | ].
  inversion Hall as [| ? ? Hop Hall']; subst.
  simpl. unfold bind. rewrite (body_or _ _ _ Hi Hop), Ha.
  apply IH; [ lia | assumption | assumption ].
Qed.

(** While every rule passes, a run of AND steps calls each of them and
    keeps the accumulator. *)
Lemma loop_and_all_pass l : forall i a w rs w',
  i <> 0 ->
  Forall (fun s => op s = opAnd) l ->
  accValid a = true ->
  invoke_all l w = Some (rs, w') ->
  Forall (fun res => IsValid res = true) rs ->
  loop i l a w = Some (a, w').
Proof.
  induction l as [| s l IH]; intros i a w rs w' Hi Hall Ha Hinv Hrs.
  - now injection Hinv as <- <-.
  - inversion Hall as [| ? ? Hop Hall']; subst.
    simpl in Hinv. apply bind_inv in Hinv as (res & w1 & Hv & Hinv).
    apply bind_inv in Hinv as (rs' & w2 & Hinv & Hret).
    injection Hret as <- <-.
    inversion Hrs as [| ? ? Hres Hrs']; subst.
    simpl. unfold bind. rewrite (body_and _ _ _ Hi Hop), Ha, Hv, Hres.
    replace {| accValid := true; messages := messages a |} with a
      by (destruct a as [b ms]; simpl in Ha; now subst).
    apply (IH (S i) a w1 rs' w2); auto.
Qed.

(** The loop over a chain of AND steps whose rules all pass. *)
Lemma loop_and_chain_passes l w rs w' :
  l <> [] ->
  Forall (fun s => op s = opAnd) l ->
  invoke_all l w = Some (rs, w') ->
  Forall (fun res => IsValid res = true) rs ->
  loop 0 l acc0 w = Some ({| accValid := true; messages := [] |}, w').
Proof.
  intros Hl Hall Hinv Hrs. destruct l as [| s l]; [ contradiction | ].
  inversion Hall as [| ? ? Hop Hall']; subst.
  simpl in Hinv. apply bind_inv in Hinv as (res & w1 & Hv & Hinv).
  apply bind_inv in Hinv as (rs' & w2 & Hinv & Hret).
  injection Hret as <- <-.
  inversion Hrs as [| ? ? Hres Hrs']; subst.
  cbn [loop]. unfold bind. rewrite body_first, Hv, Hres. cbn [messages acc0].
  now apply (@loop_and_all_pass l 1 _ w1 rs' w2).
Qed.

End Runs.

(** X3: a chain of AND steps whose rules, called one after the other, all
    pass is valid, and every rule has been called: the world is the one
    reached by calling them all. *)
Theorem and_chain_all_pass :
  forall (W : Type) (l : list (chainedStep W)) (w w' : W)
         (rs : list ValidationResult),
    Forall (fun s => op s = opAnd) l ->
    invoke_all l w = Some (rs, w') ->
    Forall (fun res => IsValid res = true) rs ->
    Validate {| steps := l |} w
    = Some ({| IsValid := true; Message := [] |}, w').
Proof.
  intros W l w w' rs Hall Hinv Hrs. destruct l as [| s l].
  - now injection Hinv as <- <-.
  - rewrite Validate_nonempty by discriminate.
    now rewrite (@loop_and_chain_passes W (s :: l) w rs w').
Qed.

Lemma and_chain_all_pass_witness :
  Validate (W := unit)
    {| steps := [ {| validator := passRule; op := opAnd |};
                  {| validator := const_rule (mkResult true ["note"]);
                     op := opAnd |} ] |} tt
  = Some ({| IsValid := true; Message := [] |}, tt).
Proof.
  refine (@and_chain_all_pass unit _ tt tt
            [Success; mkResult true ["note"]] _ _ _).
  - repeat constructor.
  - reflexivity.
  - repeat constructor.
Defined.

(** X4: in a chain of AND steps, when the rules pass up to a rule that
    fails, the chain is invalid with the messages of that rule alone, and
    the rules after it are not called: the world is the one the failing
    rule left. *)
Theorem and_chain_stops_at_first_failure :
  forall (W : Type) (pre rest : list (chainedStep W)) (s : chainedStep W)
         (w w1 w2 : W) (rs : list ValidationResult) (res : ValidationResult),
    Forall (fun s => op s = opAnd) (pre ++ s :: rest) ->
    invoke_all pre w = Some (rs, w1) ->
    Forall (fun res => IsValid res = true) rs ->
    validator s w1 = Some (res, w2) ->
    IsValid res = false ->
    Validate {| steps := pre ++ s :: rest |} w
    = Some ({| IsValid := false; Message := Message res |}, w2).
Proof.
  intros W pre rest s w w1 w2 rs res Hall Hinv Hrs Hv Hres.
  apply Forall_app in Hall as [Hpre Hrest].
  inversion Hrest as [| ? ? Hop Hrest']; subst.
  rewrite Validate_nonempty by (now destruct pre).
  destruct pre as [| s0 pre].
  - injection Hinv as <- <-. cbn [app loop].
    unfold bind. rewrite body_first, Hv, Hres. cbn [messages acc0 app].
    now rewrite loop_and_skipped by (auto; lia).
  - rewrite loop_app.
    rewrite (@loop_and_chain_passes W (s0 :: pre) w rs w1)
      by (auto; discriminate).
    cbn [loop]. unfold bind.
    rewrite body_and by (auto; simpl; lia).
    cbn [accValid messages]. rewrite Hv, Hres. cbn [app].
    now rewrite loop_and_skipped by (auto; simpl; lia).
Qed.

Lemma and_chain_stops_at_first_failure_witness :
  Validate (W := nat)
    {| steps := [ {| validator := passRule; op := opAnd |} ]
                ++ {| validator := countingFail "e1"; op := opAnd |}
                   :: [ {| validator := countingFail "e2"; op := opAnd |} ] |}
    0
  = Some ({| IsValid := false; Message := ["e1"] |}, 1).
Proof.
  refine (@and_chain_stops_at_first_failure nat _ _ _ 0 0 1 [Success]
            (Fail ["e1"]) _ _ _ _ _).
  - repeat constructor.
  - reflexivity.
  - repeat constructor.
  - reflexivity.
  - reflexivity.
Defined.

(** X5: in a chain of OR steps, when the rules fail up to a rule that
    passes, the chain is valid without any message, and the rules after the
    passing one are not called: the world is the one the passing rule
    left. *)
Theorem or_chain_stops_at_first_success :
  forall (W : Type) (pre rest : list (chainedStep W)) (s : chainedStep W)
         (w w1 w2 : W) (rs : list ValidationResult) (res : ValidationResult),
    Forall (fun s => op s = opOr) (pre ++ s :: rest) ->
    invoke_all pre w = Some (rs, w1) ->
    Forall (fun res => IsValid res = false) rs ->
    validator s w1 = Some (res, w2) ->
    IsValid res = true ->
    Validate {| steps := pre ++ s :: rest |} w
    = Some ({| IsValid := true; Message := [] |}, w2).
Proof.
  intros W pre rest s w w1 w2 rs res Hall Hinv Hrs Hv Hres.
  apply Forall_app in Hall as [Hpre Hrest].
  inversion Hrest as [| ? ? Hop Hrest']; subst.
  rewrite Validate_nonempty by (now destruct pre).
  rewrite loop_app.
  rewrite (@loop_or_all_fail W pre 0 acc0 w rs w1 Hpre eq_refl Hinv Hrs).
  cbn [loop]. unfold bind.
  assert (Hb : body (0 + List.length pre) s
                    {| accValid := false;
                       messages := messages acc0 ++ List.concat (map Message rs) |}
                    w1
               = Some ({| accValid := true; messages := [] |}, w2)).
  { destruct pre as [| s0 pre].
    - injection Hinv as <- <-. cbn. unfold bind.
      rewrite Hv. cbn. now rewrite collect_failure_eq, Hres.
    - rewrite body_or by (auto; simpl; lia).
      cbn [accValid]. now rewrite Hv, Hres. }
  rewrite Hb.
  now rewrite loop_or_skipped by (auto; simpl; lia).
Qed.

Lemma or_chain_stops_at_first_success_witness :
  Validate (W := nat)
    {| steps := [ {| validator := countingFail "e1"; op := opOr |} ]
                ++ {| validator := passRule; op := opOr |}
                   :: [ {| validator := countingFail "e2"; op := opOr |} ] |}
    0
  = Some ({| IsValid := true; Message := [] |}, 1).
Proof.
  refine (@or_chain_stops_at_first_success nat _ _ _ 0 1 1 [Fail ["e1"]]
            Success _ _ _ _ _).
  - repeat constructor.
  - reflexivity.
  - repeat constructor.
  - reflexivity.
  - reflexivity.
Defined.

(** ** The chain as a formula, the order of the calls, panics *)

Lemma absorb_combine_valid (i : nat) (o : logicalOp) (a : acc)
      (res : ValidationResult) :
  i <> 0 ->
  accValid (if invokes i o a then absorb i o a res else a)
  = combine_valid o (accValid a) (IsValid res).
Proof.
  intros Hi. unfold invokes. rewrite (proj2 (Nat.eqb_neq i 0) Hi).
  destruct o, (accValid a) eqn:Ha; simpl; rewrite ?Ha; reflexivity.
Qed.

Lemma loop_is_left_fold {W : Type} (l : list (chainedStep W))
      (rs : list ValidationResult) :
  Forall2 always_returns l rs ->
  forall i a w,
    i <> 0 ->
    exists a' w',
      loop i l a w = Some (a', w')
      /\ accValid a'
         = fold_left (fun b ro => combine_valid (snd ro) b (fst ro))
                     (combine (map IsValid rs) (map (@op W) l)) (accValid a).
Proof.
  induction 1 as [| s res l rs Hs Hl IH]; intros i a w Hi.
  - exists a, w. now split.
  - destruct (Hs w) as (w1 & Hv).
    pose proof (absorb_combine_valid (op s) a res Hi) as Hacc.
    destruct (IH (S i) (if invokes i (op s) a then absorb i (op s) a res else a)
                 (if invokes i (op s) a then w1 else w)) as (a' & w' & Hloop & Hfold);
      [ lia | ].
    exists a', w'. split.
    + simpl. unfold bind. rewrite body_split.
      destruct (invokes i (op s) a); [ now rewrite Hv | exact Hloop ].
    + simpl. now rewrite Hfold, Hacc.
Qed.

(** X6: when the rule of every step returns the same result in every
    world, [Validate] returns, and the validity of what it returns is the
    chain folded from the left, the first validity combined with each later
    one by [&&] on an AND step and by [||] on an OR step, without
    precedence: the short circuits change which rules run, not the
    outcome. *)
Theorem Validate_is_left_fold :
  forall (W : Type) (l : list (chainedStep W)) (rs : list ValidationResult)
         (w : W),
    Forall2 always_returns l rs ->
    exists (r : ValidationResult) (w' : W),
      Validate {| steps := l |} w = Some (r, w')
      /\ IsValid r = chain_valid (combine (map IsValid rs) (map (@op W) l)).
Proof.
  intros W l rs w Hall. destruct Hall as [| s res l rs Hs Hl].
  - exists Success, w. now split.
  - destruct (Hs w) as (w1 & Hv).
    destruct (@loop_is_left_fold W l rs Hl 1
                {| accValid := IsValid res;
                   messages := if IsValid res then []
                               else [] ++ Message res |} w1)
      as (a' & w' & Hloop & Hfold); [ lia | ].
    exists (result_of a'), w'. split.
    + rewrite Validate_nonempty by discriminate.
      cbn [loop]. unfold bind. rewrite body_first, Hv.
      cbn [messages acc0]. now rewrite Hloop.
    + cbn [accValid] in Hfold.
      cbn [map combine chain_valid fst snd]. rewrite <- Hfold.
      unfold result_of. now destruct (accValid a').
Qed.

Lemma Validate_is_left_fold_witness :
  exists (r : ValidationResult) (w' : nat),
    Validate {| steps := [ {| validator := countingFail "a"; op := opAnd |};
                           {| validator := countingFail "b"; op := opAnd |};
                           {| validator := passRule; op := opOr |} ] |} 0
    = Some (r, w')
    /\ IsValid r
       = chain_valid (combine (map IsValid [Fail ["a"]; Fail ["b"]; Success])
                              [opAnd; opAnd; opOr]).
Proof.
  refine (@Validate_is_left_fold nat _ [Fail ["a"]; Fail ["b"]; Success] 0 _).
  repeat constructor; intros n; eexists; reflexivity.
Defined.

(** The entries an instrumented loop adds to the log: their step numbers
    increase and lie among the numbers of the steps of the loop. *)
Lemma loop_log_sorted {W : Type} (l : list (chainedStep W)) :
  forall k i a w log a' w' log',
    loop i (instrument_from k l) a (w, log) = Some (a', (w', log')) ->
    exists calls : list Event,
      log' = log ++ calls
      /\ StronglySorted lt (map fst calls)
      /\ Forall (fun j => k <= j < k + List.length l) (map fst calls).
Proof.
  induction l as [| s l IH]; intros k i a w log a' w' log' Hloop.
  - injection Hloop as <- <- <-. exists []. rewrite app_nil_r.
    repeat split; constructor.
  - simpl in Hloop. apply bind_inv in Hloop as (a1 & [w1 log1] & Hb & Hloop).
    destruct (IH (S k) (S i) a1 w1 log1 a' w' log' Hloop)
      as (calls & -> & Hsort & Hrange).
    assert (Hrange' : Forall (fun j => k <= j < k + List.length (s :: l))
                             (map fst calls)).
    { eapply Forall_impl; [ | exact Hrange ]. simpl. intros j Hj. lia. }
    rewrite body_split in Hb. cbn [op validator] in Hb.
    destruct (invokes i (op s) a).
    + unfold logged in Hb. cbn [fst snd] in Hb.
      destruct (validator s w) as [[res wv] |]; [ | discriminate ].
      injection Hb as <- <- <-.
      exists ((k, res) :: calls). rewrite <- app_assoc. split; [ reflexivity | ].
      split.
      * simpl. constructor; [ exact Hsort | ].
        eapply Forall_impl; [ | exact Hrange ]. simpl. intros j Hj. lia.
      * simpl. constructor; [ simpl; lia | exact Hrange' ].
    + injection Hb as <- <- <-. exists calls. auto.
Qed.

(** X7: the rules of a chain are called in the order of the steps and each
    at most once: in the call log of the instrumented chain the step numbers
    strictly increase, and each is the number of a step of the chain. *)
Theorem rules_called_in_order_at_most_once :
  forall (W : Type) (f : FluentValidator W) (w w' : W)
         (r : ValidationResult) (log : list Event),
    Validate (instrument f) (w, []) = Some (r, (w', log)) ->
    StronglySorted lt (map fst log)
    /\ NoDup (map fst log)
    /\ Forall (fun j => j < List.length (steps f)) (map fst log).
Proof.
  intros W [l] w w' r log Hv. unfold Validate, instrument in Hv.
  cbn [steps] in *.
  assert (Hgoal : StronglySorted lt (map fst log)
                  /\ Forall (fun j => j < List.length l) (map fst log)).
  { destruct (List.length (instrument_from 0 l) =? 0)%nat.
    - injection Hv as <- <- <-. split; constructor.
    - apply bind_inv in Hv as (a & [w1 log1] & Hloop & Hv).
      destruct (@loop_log_sorted W l 0 0 acc0 w [] a w1 log1 Hloop)
        as (calls & Hlog & Hs & Hr).
      cbn [app] in Hlog. subst log1.
      assert (log = calls) as ->
          by (destruct (accValid a); now injection Hv as <- <- <-).
      split; [ exact Hs | ].
      eapply Forall_impl; [ | exact Hr ]. simpl. intros j Hj. lia. }
  destruct Hgoal as [Hs Hr]. repeat split; auto.
  clear - Hs. induction Hs as [| j js Hs IH Hj]; constructor; auto.
  intros Hin. rewrite Forall_forall in Hj. specialize (Hj j Hin). lia.
Qed.

Lemma rules_called_in_order_at_most_once_witness :
  StronglySorted lt (map fst [(0, Fail ["e1"]); (2, Fail ["e3"])])
  /\ NoDup (map fst [(0, Fail ["e1"]); (2, Fail ["e3"])])
  /\ Forall (fun j => j < 3) (map fst [(0, Fail ["e1"]); (2, Fail ["e3"])]).
Proof.
  refine (@rules_called_in_order_at_most_once nat
            (Or (And (And New (countingFail "e1")) (countingFail "e2"))
                (countingFail "e3"))
            0 2 (Fail ["e1"; "e3"]) _ _).
  reflexivity.
Defined.




(** * The error helpers *)

Lemma errors_Join_New (errs : list string) :
  errors_Join (map errors_New errs)
  = match errs with
    | [] => None
    | _ :: _ => Some (joinError (map errorString errs))
    end.
Proof.
  unfold errors_Join.
  assert (H : flat_map (fun e : error => match e with
                                         | Some x => [x]
                                         | None => []
                                         end) (map errors_New errs)
              = map errorString errs).
  { induction errs as [| e errs IH]; simpl; [ reflexivity | now rewrite IH ]. }
  rewrite H. now destruct errs.
Qed.

(** X9: [NewErrorFromStrings] returns nil on the empty list and on no
    other; on a list of messages it returns an error that wraps one error
    per message, in order, and whose text is the messages with a newline
    between each. *)
Theorem NewErrorFromStrings_joins_messages :
  forall errs : list string,
    (NewErrorFromStrings errs = None <-> errs = [])
    /\ NewErrorFromStrings errs
       = match errs with
         | [] => None
         | _ :: _ => Some (joinError (map errorString errs))
         end
    /\ option_map Error (NewErrorFromStrings errs)
       = match errs with
         | [] => None
         | _ :: _ => Some (String.concat newline errs)
         end.
Proof.
  intros errs.
  assert (H : NewErrorFromStrings errs
              = match errs with
                | [] => None
                | _ :: _ => Some (joinError (map errorString errs))
                end).
  { unfold NewErrorFromStrings. destruct errs as [| e errs]; [ reflexivity | ].
    cbn [List.length Nat.eqb]. apply errors_Join_New. }
  split; [ | split ].
  - rewrite H. destruct errs; split; congruence.
  - exact H.
  - rewrite H. destruct errs as [| e errs]; [ reflexivity | ].
    cbn [option_map Error]. rewrite map_map. cbn [Error]. now rewrite map_id.
Qed.

(** X10: [NewJSONError] returns nil on the empty list and on no other,
    whatever [json.Marshal] does: when the marshalling fails the error of
    [json.Marshal] is returned, and when it succeeds the error returned has
    the marshalled bytes as its text. [json.Marshal] is not called on the
    empty list. *)
Theorem NewJSONError_nil_iff_no_message :
  forall (json_Marshal : ErrorResponse -> string * error)
         (errs : list string),
    (NewJSONError json_Marshal errs = None <-> errs = [])
    /\ (forall (b : string) (e : GoError),
           errs <> [] ->
           json_Marshal {| Errors := errs |} = (b, Some e) ->
           NewJSONError json_Marshal errs = Some e)
    /\ (forall b : string,
           errs <> [] ->
           json_Marshal {| Errors := errs |} = (b, None) ->
           option_map Error (NewJSONError json_Marshal errs) = Some b).
Proof.
  intros json_Marshal errs. unfold NewJSONError.
  destruct errs as [| x errs]; cbn [List.length Nat.eqb].
  - repeat split; try reflexivity; intros; contradiction.
  - split; [ | split ].
    + destruct (json_Marshal {| Errors := x :: errs |}) as [b [e |]];
        split; discriminate.
    + intros b e _ Hm. now rewrite Hm.
    + intros b _ Hm. now rewrite Hm.
Qed.

(** X11: the error helpers on the result of a chain: a valid result gives
    no error, from either helper; and no error does not tell that the chain
    is valid, since the invalid result of a chain whose failing rule has no
    message gives no error either. *)
Theorem valid_result_gives_no_error :
  (forall (W : Type) (f : FluentValidator W) (w w' : W)
          (r : ValidationResult)
          (json_Marshal : ErrorResponse -> string * error),
      Validate f w = Some (r, w') ->
      IsValid r = true ->
      NewErrorFromStrings (Message r) = None
      /\ NewJSONError json_Marshal (Message r) = None)
  /\ (forall (W : Type) (w : W)
             (json_Marshal : ErrorResponse -> string * error),
         exists r : ValidationResult,
           Validate (And New (const_rule (Fail []))) w = Some (r, w)
           /\ IsValid r = false
           /\ NewErrorFromStrings (Message r) = None
           /\ NewJSONError json_Marshal (Message r) = None).
Proof.
  split.
  - intros W f w w' r json_Marshal Hv Hr. unfold Validate in Hv.
    assert (Hm : Message r = []).
    { destruct (List.length (steps f) =? 0)%nat.
      - now injection Hv as <- <-.
      - apply bind_inv in Hv as (a & w1 & _ & Hv).
        destruct (accValid a); injection Hv as <- <-;
          [ reflexivity | discriminate ]. }
    rewrite Hm. now split.
  - intros W w json_Marshal. exists (Fail []). repeat split.
Qed.

Lemma valid_result_gives_no_error_witness :
  NewErrorFromStrings (Message Success) = None
  /\ NewJSONError (fun resp => (String.concat "," (Errors resp), None))
                  (Message Success) = None.
Proof.
  refine (proj1 valid_result_gives_no_error unit
                (Or (And New (failMsg "e")) passRule) tt tt Success _ _ _);
    reflexivity.
Defined.

Lemma NewJSONError_nil_iff_no_message_witness :
  option_map Error
             (NewJSONError (fun resp => (String.concat "," (Errors resp), None))
                           ["a"; "b"])
  = Some "a,b".
Proof.
  refine (proj2 (proj2 (NewJSONError_nil_iff_no_message
                          (fun resp => (String.concat "," (Errors resp), None))
                          ["a"; "b"])) "a,b" _ _).
  - discriminate.
  - reflexivity.
Defined.

(** * The rules *)

(** ** Bounds on integers and on lengths *)

(** X12: [IntBetween(v, min, max)] passes exactly when [min <= v <= max]
    (so never when [max < min]), and it is valid exactly when the chain
    [New().And(IntMin(v, min)).And(IntMax(v, max))] is; the chain reports
    the bound that is broken, the lower one first. *)
Theorem IntBetween_is_IntMin_and_IntMax :
  forall (W : Type) (v lo hi : Z) (w : W),
    exists r1 r2 : ValidationResult,
      IntBetween v lo hi w = Some (r1, w)
      /\ Validate (And (And New (IntMin v lo)) (IntMax v hi)) w = Some (r2, w)
      /\ IsValid r1 = IsValid r2
      /\ (IsValid r1 = true <-> (lo <= v <= hi)%Z)
      /\ ((v < lo)%Z -> Message r2 = [("must be >= " ++ Itoa lo)%string])
      /\ ((lo <= v)%Z -> (hi < v)%Z ->
          Message r2 = [("must be <= " ++ Itoa hi)%string]).
Proof.
  intros W v lo hi w.
  unfold IntBetween, Validate, And, New, IntMin, IntMax.
  cbn [steps app List.length Nat.eqb loop]. unfold bind, body.
  cbn [Nat.eqb validator op].
  destruct (Z.ltb_spec v lo) as [Hlo | Hlo];
    destruct (Z.gtb_spec v hi) as [Hhi | Hhi]; cbn;
    eexists; eexists; repeat split; intros; try reflexivity; try lia;
    try discriminate.
Qed.

(** X13: [LenBetween(s, min, max)] passes exactly when the number of bytes
    of [s] lies in [min .. max], and it is valid exactly when the chain
    [New().And(MinLen(s, min)).And(MaxLen(s, max))] is; [NonEmpty(s)] is
    valid exactly when [MinLen(s, 1)] is. *)
Theorem LenBetween_is_MinLen_and_MaxLen :
  forall (W : Type) (s : string) (lo hi : Z) (w : W),
    (exists r1 r2 : ValidationResult,
        LenBetween s lo hi w = Some (r1, w)
        /\ Validate (And (And New (MinLen s lo)) (MaxLen s hi)) w
           = Some (r2, w)
        /\ IsValid r1 = IsValid r2
        /\ (IsValid r1 = true <-> (lo <= len s <= hi)%Z))
    /\ (exists r3 r4 : ValidationResult,
           NonEmpty s w = Some (r3, w)
           /\ MinLen s 1 w = Some (r4, w)
           /\ IsValid r3 = IsValid r4
           /\ (IsValid r3 = true <-> s <> "")).
Proof.
  intros W s lo hi w. split.
  - unfold LenBetween, Validate, And, New, MinLen, MaxLen.
    cbn [steps app List.length Nat.eqb loop]. unfold bind, body.
    cbn [Nat.eqb validator op].
    destruct (Z.ltb_spec (len s) lo) as [Hlo | Hlo];
      destruct (Z.gtb_spec (len s) hi) as [Hhi | Hhi]; cbn;
      eexists; eexists; repeat split; intros; try reflexivity; try lia;
      try discriminate.
  - unfold NonEmpty, MinLen, len.
    destruct s as [| c s]; cbn [String.eqb String.length].
    + eexists; eexists; repeat split; try reflexivity;
        intros; [ discriminate | congruence ].
    + destruct (Z.ltb_spec (Z.of_nat (S (String.length s))) 1) as [H | H];
        [ lia | ].
      eexists; eexists; repeat split; try reflexivity; intros; discriminate.
Qed.

(** X14: [IntMultipleOf(v, m)] passes exactly when [m] is not zero and
    divides [v], for negative [v] and [m] as for positive ones. *)
Theorem IntMultipleOf_iff_divides :
  forall (W : Type) (v m : Z) (w : W),
    exists r : ValidationResult,
      IntMultipleOf v m w = Some (r, w)
      /\ (IsValid r = true <-> m <> 0%Z /\ (m | v)%Z)
      /\ (IsValid r = false ->
          Message r = [("must be a multiple of " ++ Itoa m)%string]).
Proof.
  intros W v m w. unfold IntMultipleOf, go_rem, bind, ret, panic.
  destruct (Z.eqb_spec m 0) as [Hm | Hm].
  - eexists. split; [ reflexivity | ]. split; [ | reflexivity ].
    cbn [IsValid Fail]. split; [ discriminate | ].
    intros [Hm' _]. contradiction.
  - destruct (Z.eqb_spec (Z.rem v m) 0) as [Hr | Hr]; cbn [negb].
    + eexists. split; [ reflexivity | ]. split; [ | discriminate ].
      split; [ | reflexivity ]. intros _. split; [ assumption | ].
      now apply Z.rem_divide.
    + eexists. split; [ reflexivity | ]. split; [ | reflexivity ].
      cbn [IsValid Fail]. split; [ discriminate | ].
      intros [_ Hd]. exfalso. apply Hr. now apply Z.rem_divide.
Qed.

(** X15: two pairs of rules that agree, result and message:
    [IntPositive(v)] and [IntGreaterThan(v, 0)], and [IntNonNegative(v)] and
    [IntMin(v, 0)]. The strict bounds exclude the bound itself:
    [IntGreaterThan(v, m)] passes exactly when [m < v] and [IntLessThan(v, m)]
    exactly when [v < m]. *)
Theorem Int_sign_rules_are_bounds_at_zero :
  forall (W : Type) (v m : Z) (w : W),
    IntPositive v w = IntGreaterThan v 0 w
    /\ IntNonNegative v w = IntMin v 0 w
    /\ (IntGreaterThan v m w = Some (Success, w) <-> (m < v)%Z)
    /\ (IntLessThan v m w = Some (Success, w) <-> (v < m)%Z).
Proof.
  intros W v m w. unfold IntPositive, IntGreaterThan, IntNonNegative, IntMin,
    IntLessThan, ret.
  split; [ | split; [ | split ] ].
  - now destruct (v <=? 0)%Z.
  - now destruct (v <? 0)%Z.
  - destruct (Z.leb_spec v m); split; intros H0;
      try discriminate; try reflexivity; lia.
  - destruct (Z.geb_spec v m); split; intros H0;
      try discriminate; try reflexivity; lia.
Qed.

(** ** Collections *)

Lemma ContainsString_loop_spec (xs : list string) (elem : string) :
  (In elem xs /\ ContainsString_loop xs elem = Success)
  \/ (~ In elem xs
      /\ ContainsString_loop xs elem = Fail [("must contain " ++ elem)%string]).
Proof.
  induction xs as [| v xs IH]; simpl.
  - right. now split.
  - destruct (String.eqb_spec v elem) as [-> | Hne].
    + left. split; [ now left | reflexivity ].
    + destruct IH as [[Hin ->] | [Hnin ->]].
      * left. split; [ now right | reflexivity ].
      * right. split; [ | reflexivity ]. intros [H | H]; contradiction.
Qed.

(** X16: [ContainsString(list, elem)] passes exactly when [elem] is an
    element of [list]; when it is not, and so on the empty list, the failure
    is "must contain " followed by [elem]. *)
Theorem ContainsString_iff_In :
  forall (W : Type) (xs : list string) (elem : string) (w : W),
    (In elem xs <-> ContainsString xs elem w = Some (Success, w))
    /\ (~ In elem xs <->
        ContainsString xs elem w
        = Some (Fail [("must contain " ++ elem)%string], w)).
Proof.
  intros W xs elem w. unfold ContainsString, ret.
  destruct (ContainsString_loop_spec xs elem) as [[Hin ->] | [Hnin ->]].
  - split; split; intros H; auto; try contradiction; discriminate.
  - split; split; intros H; auto; try contradiction; discriminate.
Qed.

Lemma existsb_eqb_In (v : string) (seen : list string) :
  existsb (String.eqb v) seen = true <-> In v seen.
Proof.
  rewrite existsb_exists. split.
  - intros (x & Hin & Heq). apply String.eqb_eq in Heq. now subst.
  - intros Hin. exists v. split; [ assumption | apply String.eqb_refl ].
Qed.

Lemma UniqueStrings_loop_spec (xs : list string) :
  forall seen : list string,
    (UniqueStrings_loop xs seen = Success
     /\ NoDup xs /\ (forall x, In x xs -> ~ In x seen))
    \/ (UniqueStrings_loop xs seen = Fail ["must be unique"]
        /\ ~ (NoDup xs /\ (forall x, In x xs -> ~ In x seen))).
Proof.
  induction xs as [| v xs IH]; intros seen; simpl.
  - left. repeat split; [ constructor | intros x [] ].
  - destruct (existsb (String.eqb v) seen) eqn:Hex.
    + right. split; [ reflexivity | ]. intros [_ H].
      apply existsb_eqb_In in Hex. apply (H v); [ now left | assumption ].
    + assert (Hv : ~ In v seen).
      { intros Hin. apply existsb_eqb_In in Hin. congruence. }
      destruct (IH (v :: seen)) as [(-> & Hnd & Hfresh) | (-> & Hbad)].
      * left. split; [ reflexivity | ]. split.
        -- constructor; [ | assumption ].
           intros Hin. apply (Hfresh v Hin). now left.
        -- intros x [<- | Hin]; [ assumption | ].
           intros Hs. apply (Hfresh x Hin). now right.
      * right. split; [ reflexivity | ]. intros [Hnd Hfresh]. apply Hbad.
        inversion Hnd as [| ? ? Hnin Hnd']; subst. split; [ assumption | ].
        intros x Hin [<- | Hs]; [ contradiction | ].
        apply (Hfresh x); [ now right | assumption ].
Qed.

(** X17: [UniqueStrings(list)] passes exactly when no string occurs twice
    in [list], and fails with "must be unique" otherwise. *)
Theorem UniqueStrings_iff_NoDup :
  forall (W : Type) (xs : list string) (w : W),
    (NoDup xs <-> UniqueStrings xs w = Some (Success, w))
    /\ (~ NoDup xs <->
        UniqueStrings xs w = Some (Fail ["must be unique"], w)).
Proof.
  intros W xs w. unfold UniqueStrings, ret.
  destruct (UniqueStrings_loop_spec xs [])
    as [(-> & Hnd & _) | (-> & Hbad)].
  - split; split; intros H; auto; try contradiction; discriminate.
  - assert (Hn : ~ NoDup xs).
    { intros Hnd. apply Hbad. split; [ assumption | ]. intros x _ []. }
    split; split; intros H; auto; try contradiction; discriminate.
Qed.

(** ** The Luhn checksum *)

Lemma luhn_step_None (ch : ascii) (st : luhn_state) :
  luhn_step ch st = None <-> luhn_byte_ok ch = false.
Proof.
  unfold luhn_step, luhn_byte_ok.
  change (byte_val "0"%char) with 48%Z. change (byte_val "9"%char) with 57%Z.
  destruct (Ascii.eqb ch " "%char); simpl; [ split; discriminate | ].
  destruct (Z.ltb_spec (byte_val ch) 48), (Z.gtb_spec (byte_val ch) 57),
    (Z.leb_spec 48 (byte_val ch)), (Z.leb_spec (byte_val ch) 57);
    simpl; try lia; split; try discriminate; reflexivity.
Qed.

Lemma luhn_loop_None (rbytes : list ascii) :
  forall st,
    luhn_loop rbytes st = None <-> forallb luhn_byte_ok rbytes = false.
Proof.
  induction rbytes as [| ch rbytes IH]; intros st; simpl.
  - split; discriminate.
  - destruct (luhn_step ch st) as [st' |] eqn:Hs.
    + assert (Hok : luhn_byte_ok ch = true).
      { destruct (luhn_byte_ok ch) eqn:Hok; [ reflexivity | ].
        apply (luhn_step_None ch st) in Hok. congruence. }
      rewrite Hok. simpl. apply IH.
    + apply luhn_step_None in Hs. rewrite Hs. simpl. split; reflexivity.
Qed.

Lemma forallb_rev {A : Type} (p : A -> bool) (l : list A) :
  forallb p (rev l) = forallb p l.
Proof.
  induction l as [| x l IH]; simpl; [ reflexivity | ].
  rewrite forallb_app, IH. simpl. rewrite andb_true_r. apply andb_comm.
Qed.

(** Spaces leave the state of the loop as it is. *)
Lemma luhn_loop_spaces (rbytes : list ascii) :
  forall st,
    forallb (Ascii.eqb " "%char) rbytes = true ->
    luhn_loop rbytes st = Some st.
Proof.
  induction rbytes as [| ch rbytes IH]; intros st H; [ reflexivity | ].
  cbn [forallb] in H. apply andb_true_iff in H as [Hc Hr].
  cbn [luhn_loop]. unfold luhn_step. rewrite Ascii.eqb_sym, Hc. now apply IH.
Qed.

(** X18: [LuhnValid(s)] fails with "must be numeric" exactly when [s] has a
    byte that is neither a space nor a decimal digit, wherever it stands;
    and on the empty string, or a string of spaces only, it fails with
    "invalid luhn". *)
Theorem LuhnValid_failures :
  forall (W : Type) (s : string) (w : W),
    (forallb luhn_byte_ok (list_ascii_of_string s) = false
     <-> LuhnValid s w = Some (Fail ["must be numeric"], w))
    /\ (forallb (Ascii.eqb " "%char) (list_ascii_of_string s) = true ->
        LuhnValid s w = Some (Fail ["invalid luhn"], w)).
Proof.
  intros W s w. unfold LuhnValid, ret, luhn_result. split.
  - rewrite <- forallb_rev.
    rewrite <- (luhn_loop_None (rev (list_ascii_of_string s))
                  {| luhn_sum := 0; luhn_alt := false; luhn_digits := 0 |}).
    destruct (luhn_loop _ _) as [st |]; split; intros H;
      try reflexivity; try discriminate.
    destruct ((luhn_digits st =? 0)%Z || negb (Z.rem (luhn_sum st) 10 =? 0)%Z);
      discriminate.
  - intros H. rewrite <- forallb_rev in H.
    now rewrite (luhn_loop_spaces _ _ H).
Qed.

Lemma LuhnValid_failures_witness :
  LuhnValid (W := unit) "   " tt = Some (Fail ["invalid luhn"], tt).
Proof.
  refine (proj2 (@LuhnValid_failures unit "   " tt) _). reflexivity.
Defined.

Lemma luhn_loop_filter (rbytes : list ascii) :
  forall st,
    luhn_loop (filter (fun c => negb (Ascii.eqb c " "%char)) rbytes) st
    = luhn_loop rbytes st.
Proof.
  induction rbytes as [| ch rbytes IH]; intros st; [ reflexivity | ].
  cbn [filter luhn_loop].
  destruct (Ascii.eqb ch " "%char) eqn:Hc; cbn [negb luhn_loop].
  - unfold luhn_step. rewrite Hc. apply IH.
  - destruct (luhn_step ch st); [ apply IH | reflexivity ].
Qed.

Lemma filter_rev_comm {A : Type} (p : A -> bool) (l : list A) :
  filter p (rev l) = rev (filter p l).
Proof.
  induction l as [| x l IH]; simpl; [ reflexivity | ].
  rewrite filter_app, IH. simpl.
  destruct (p x); simpl; [ reflexivity | now rewrite app_nil_r ].
Qed.

(** X19: [LuhnValid] does not see spaces: the result on [s] is the result
    on [s] with every space byte removed. *)
Theorem LuhnValid_ignores_spaces :
  forall (W : Type) (s : string) (w : W),
    LuhnValid s w
    = LuhnValid
        (string_of_list_ascii
           (filter (fun c => negb (Ascii.eqb c " "%char))
                   (list_ascii_of_string s))) w.
Proof.
  intros W s w. unfold LuhnValid, luhn_result.
  rewrite list_ascii_of_string_of_list_ascii.
  now rewrite <- filter_rev_comm, luhn_loop_filter.
Qed.

Lemma luhn_digit_bounds (alt : bool) (d : Z) :
  (0 <= d <= 9)%Z -> (0 <= luhn_digit alt d <= 9)%Z.
Proof.
  intros Hd. unfold luhn_digit. destruct alt; [ | lia ].
  cbn zeta. destruct (Z.gtb_spec (d * 2) 9); lia.
Qed.

(** The step of the loop on a byte it accepts. *)
Lemma luhn_step_ok (ch : ascii) :
  luhn_byte_ok ch = true ->
  (forall st, luhn_step ch st = Some st)
  \/ (exists d : Z,
         (0 <= d <= 9)%Z
         /\ forall st,
             luhn_step ch st
             = Some {| luhn_sum := luhn_sum st + luhn_digit (luhn_alt st) d;
                       luhn_alt := negb (luhn_alt st);
                       luhn_digits := luhn_digits st + 1 |}).
Proof.
  unfold luhn_byte_ok, luhn_step.
  change (byte_val "0"%char) with 48%Z. change (byte_val "9"%char) with 57%Z.
  destruct (Ascii.eqb ch " "%char); [ now left | ].
  cbn [orb]. intros H. apply andb_true_iff in H as [H1 H2].
  apply Z.leb_le in H1, H2. right. exists (byte_val ch - 48)%Z.
  split; [ lia | ]. intros st.
  destruct (Z.ltb_spec (byte_val ch) 48); [ lia | ].
  destruct (Z.gtb_spec (byte_val ch) 57); [ lia | ]. reflexivity.
Qed.

(** On bytes it accepts the loop ends, having added to [sum] an amount
    [total] and to [digits] a count [n] that depend on the bytes and on
    [alt] only. *)
Lemma luhn_loop_shape (rbytes : list ascii) :
  forallb luhn_byte_ok rbytes = true ->
  forall alt : bool,
    exists (total n : Z) (alt' : bool),
      (0 <= total)%Z /\ (0 <= n)%Z
      /\ forall sum dg : Z,
          luhn_loop rbytes {| luhn_sum := sum; luhn_alt := alt;
                              luhn_digits := dg |}
          = Some {| luhn_sum := sum + total; luhn_alt := alt';
                    luhn_digits := dg + n |}.
Proof.
  induction rbytes as [| ch rbytes IH]; intros Hok alt.
  - exists 0%Z, 0%Z, alt. repeat split; try lia. intros sum dg.
    cbn [luhn_loop]. now rewrite !Z.add_0_r.
  - cbn [forallb] in Hok. apply andb_true_iff in Hok as [Hch Hok].
    destruct (luhn_step_ok ch Hch) as [Hsp | (d & Hd & Hdig)].
    + destruct (IH Hok alt) as (total & n & alt' & Ht & Hn & Hl).
      exists total, n, alt'. repeat split; try assumption.
      intros sum dg. cbn [luhn_loop]. rewrite Hsp. apply Hl.
    + destruct (IH Hok (negb alt)) as (total & n & alt' & Ht & Hn & Hl).
      pose proof (luhn_digit_bounds alt Hd) as Hb.
      exists (luhn_digit alt d + total)%Z, (1 + n)%Z, alt'.
      repeat split; try lia.
      intros sum dg. cbn [luhn_loop]. rewrite Hdig.
      cbn [luhn_sum luhn_alt luhn_digits]. rewrite Hl.
      now rewrite !Z.add_assoc.
Qed.

Lemma luhn_step_digit_byte (d : Z) (st : luhn_state) :
  (0 <= d <= 9)%Z ->
  luhn_step (digit_byte d) st
  = Some {| luhn_sum := luhn_sum st + luhn_digit (luhn_alt st) d;
            luhn_alt := negb (luhn_alt st);
            luhn_digits := luhn_digits st + 1 |}.
Proof.
  intros Hd.
  assert (H : (d = 0 \/ d = 1 \/ d = 2 \/ d = 3 \/ d = 4 \/ d = 5 \/ d = 6
               \/ d = 7 \/ d = 8 \/ d = 9)%Z) by lia.
  repeat (destruct H as [-> | H]); try subst d; reflexivity.
Qed.

Lemma list_ascii_of_string_snoc (s : string) (c : ascii) :
  list_ascii_of_string (s ++ String c "") = list_ascii_of_string s ++ [c].
Proof.
  induction s as [| x s IH]; simpl; [ reflexivity | now rewrite IH ].
Qed.

(** The result on a string of accepted bytes followed by a digit. *)
Lemma luhn_result_snoc_digit (s : string) (total n : Z) (alt' : bool) (d : Z) :
  (0 <= total)%Z -> (0 <= n)%Z -> (0 <= d <= 9)%Z ->
  (forall sum dg : Z,
      luhn_loop (rev (list_ascii_of_string s))
                {| luhn_sum := sum; luhn_alt := true; luhn_digits := dg |}
      = Some {| luhn_sum := sum + total; luhn_alt := alt';
                luhn_digits := dg + n |}) ->
  luhn_result (s ++ String (digit_byte d) "")
  = if ((d + total) mod 10 =? 0)%Z then Success else Fail ["invalid luhn"].
Proof.
  intros Ht Hn Hd Hl. unfold luhn_result.
  rewrite list_ascii_of_string_snoc, rev_app_distr. cbn [rev app luhn_loop].
  rewrite luhn_step_digit_byte by assumption.
  cbn [luhn_sum luhn_alt luhn_digits negb luhn_digit]. rewrite Hl.
  cbn [luhn_sum luhn_digits].
  destruct (Z.eqb_spec (0 + 1 + n) 0) as [H0 | H0]; [ lia | ].
  cbn [orb]. rewrite Z.rem_mod_nonneg by lia.
  replace (0 + d + total)%Z with (d + total)%Z by lia.
  now destruct ((d + total) mod 10 =? 0)%Z.
Qed.

(** X20: the check digit. After any string of digits and spaces, exactly
    one of the ten decimal digits makes [LuhnValid] pass when it is
    appended; each of the other nine fails with "invalid luhn". *)
Theorem Luhn_check_digit_exists_and_is_unique :
  forall (W : Type) (s : string) (w : W),
    forallb luhn_byte_ok (list_ascii_of_string s) = true ->
    exists d : Z,
      (0 <= d <= 9)%Z
      /\ LuhnValid (s ++ String (digit_byte d) "") w
         = Some ({| IsValid := true; Message := [] |}, w)
      /\ forall d' : Z,
          (0 <= d' <= 9)%Z -> d' <> d ->
          LuhnValid (s ++ String (digit_byte d') "") w
          = Some ({| IsValid := false; Message := ["invalid luhn"] |}, w).
Proof.
  intros W s w Hok. rewrite <- forallb_rev in Hok.
  destruct (luhn_loop_shape _ Hok true) as (total & n & alt' & Ht & Hn & Hl).
  exists ((10 - total mod 10) mod 10)%Z.
  pose proof (Z.mod_pos_bound total 10 ltac:(lia)) as Hm.
  pose proof (Z.mod_pos_bound (10 - total mod 10) 10 ltac:(lia)) as Hd.
  split; [ lia | ]. unfold LuhnValid, ret. split.
  - rewrite (luhn_result_snoc_digit s (d := (10 - total mod 10) mod 10)
               Ht Hn ltac:(lia) Hl).
    destruct (Z.eqb_spec (((10 - total mod 10) mod 10 + total) mod 10) 0)
      as [H | H]; [ reflexivity | ].
    exfalso. apply H. clear - Ht. Z.div_mod_to_equations. lia.
  - intros d' Hd' Hne.
    rewrite (luhn_result_snoc_digit s (d := d') Ht Hn Hd' Hl).
    destruct (Z.eqb_spec ((d' + total) mod 10) 0) as [H | H];
      [ | reflexivity ].
    exfalso. apply Hne. clear - Ht Hd' H. Z.div_mod_to_equations. lia.
Qed.

Lemma Luhn_check_digit_exists_and_is_unique_witness :
  exists d : Z,
    (0 <= d <= 9)%Z
    /\ LuhnValid (W := unit) ("4539 1488 0343 646" ++ String (digit_byte d) "")
                 tt = Some ({| IsValid := true; Message := [] |}, tt)
    /\ forall d' : Z,
        (0 <= d' <= 9)%Z -> d' <> d ->
        LuhnValid (W := unit)
                  ("4539 1488 0343 646" ++ String (digit_byte d') "") tt
        = Some ({| IsValid := false; Message := ["invalid luhn"] |}, tt).
Proof.
  refine (@Luhn_check_digit_exists_and_is_unique unit "4539 1488 0343 646"
            tt _).
  reflexivity.
Defined.

Lemma luhn_loop_app (l1 l2 : list ascii) :
  forall st,
    luhn_loop (l1 ++ l2) st
    = match luhn_loop l1 st with
      | Some st' => luhn_loop l2 st'
      | None => None
      end.
Proof.
  induction l1 as [| ch l1 IH]; intros st; cbn [app luhn_loop];
    [ reflexivity | ].
  destruct (luhn_step ch st); [ apply IH | reflexivity ].
Qed.

Lemma list_ascii_of_string_app (s1 s2 : string) :
  list_ascii_of_string (s1 ++ s2)
  = list_ascii_of_string s1 ++ list_ascii_of_string s2.
Proof.
  induction s1 as [| x s1 IH]; simpl; [ reflexivity | now rewrite IH ].
Qed.

(** What a digit adds to the sum tells the digit. *)
Lemma luhn_digit_inj (alt : bool) (d d' : Z) :
  (0 <= d <= 9)%Z -> (0 <= d' <= 9)%Z ->
  luhn_digit alt d = luhn_digit alt d' -> d = d'.
Proof.
  intros Hd Hd'. unfold luhn_digit. destruct alt; [ | auto ].
  cbn zeta. destruct (Z.gtb_spec (d * 2) 9), (Z.gtb_spec (d' * 2) 9); lia.
Qed.

(** The result on digits and spaces around one digit [d]: the sum is made
    of a part [total] that does not depend on [d] and of what [d] adds at
    its place. *)
Lemma luhn_result_around_digit (pre post : string) :
  forallb luhn_byte_ok (list_ascii_of_string pre) = true ->
  forallb luhn_byte_ok (list_ascii_of_string post) = true ->
  exists (total : Z) (alt : bool),
    (0 <= total)%Z
    /\ forall d : Z,
        (0 <= d <= 9)%Z ->
        luhn_result (pre ++ String (digit_byte d) post)
        = if ((total + luhn_digit alt d) mod 10 =? 0)%Z then Success
          else Fail ["invalid luhn"].
Proof.
  intros Hpre Hpost. rewrite <- forallb_rev in Hpre, Hpost.
  destruct (luhn_loop_shape _ Hpost false)
    as (t1 & n1 & alt1 & Ht1 & Hn1 & Hl1).
  destruct (luhn_loop_shape _ Hpre (negb alt1))
    as (t2 & n2 & alt2 & Ht2 & Hn2 & Hl2).
  exists (t1 + t2)%Z, alt1. split; [ lia | ]. intros d Hd.
  pose proof (luhn_digit_bounds alt1 Hd) as Hb.
  unfold luhn_result.
  rewrite list_ascii_of_string_app. cbn [list_ascii_of_string].
  rewrite rev_app_distr. cbn [rev]. rewrite <- app_assoc. cbn [app].
  rewrite luhn_loop_app, Hl1. cbn [luhn_loop].
  rewrite luhn_step_digit_byte by assumption.
  cbn [luhn_sum luhn_alt luhn_digits]. rewrite Hl2.
  cbn [luhn_sum luhn_digits].
  destruct (Z.eqb_spec (0 + n1 + 1 + n2) 0) as [H0 | H0]; [ lia | ].
  cbn [orb]. rewrite Z.rem_mod_nonneg by lia.
  replace (0 + t1 + luhn_digit alt1 d + t2)%Z
    with (t1 + t2 + luhn_digit alt1 d)%Z by lia.
  now destruct ((t1 + t2 + luhn_digit alt1 d) mod 10 =? 0)%Z.
Qed.

(** X21: one wrong digit is detected. In a string of digits and spaces
    that [LuhnValid] accepts, replacing one digit, at any place, by another
    digit gives a string that fails with "invalid luhn". *)
Theorem Luhn_detects_one_wrong_digit :
  forall (W : Type) (pre post : string) (d d' : Z) (w : W),
    forallb luhn_byte_ok (list_ascii_of_string pre) = true ->
    forallb luhn_byte_ok (list_ascii_of_string post) = true ->
    (0 <= d <= 9)%Z -> (0 <= d' <= 9)%Z -> d' <> d ->
    LuhnValid (pre ++ String (digit_byte d) post) w
    = Some ({| IsValid := true; Message := [] |}, w) ->
    LuhnValid (pre ++ String (digit_byte d') post) w
    = Some ({| IsValid := false; Message := ["invalid luhn"] |}, w).
Proof.
  intros W pre post d d' w Hpre Hpost Hd Hd' Hne. unfold LuhnValid, ret.
  destruct (luhn_result_around_digit pre post Hpre Hpost)
    as (total & alt & Ht & Hres).
  rewrite (Hres d Hd), (Hres d' Hd').
  pose proof (luhn_digit_bounds alt Hd) as Hb.
  pose proof (luhn_digit_bounds alt Hd') as Hb'.
  destruct (Z.eqb_spec ((total + luhn_digit alt d) mod 10) 0) as [H | H];
    [ intros _ | discriminate ].
  destruct (Z.eqb_spec ((total + luhn_digit alt d') mod 10) 0) as [H' | H'];
    [ | reflexivity ].
  exfalso. apply Hne. apply (luhn_digit_inj alt Hd' Hd).
  clear - H H' Hb Hb'. Z.div_mod_to_equations. lia.
Qed.

Lemma Luhn_detects_one_wrong_digit_witness :
  LuhnValid (W := unit) ("4539 14" ++ String (digit_byte 3) "8 0343 6467") tt
  = Some ({| IsValid := false; Message := ["invalid luhn"] |}, tt).
Proof.
  refine (@Luhn_detects_one_wrong_digit unit "4539 14" "8 0343 6467" 8 3 tt
            _ _ _ _ _ _); try reflexivity; try lia.
Defined.

(** ** The domain of an email address *)

Lemma last_index_from_absent (bytes : list ascii) (c : ascii) :
  forall i found,
    ~ In c bytes -> last_index_from i bytes c found = found.
Proof.
  induction bytes as [| x bytes IH]; intros i found Hnin; [ reflexivity | ].
  cbn [last_index_from].
  destruct (Ascii.eqb_spec x c) as [-> | Hne].
  - exfalso. apply Hnin. now left.
  - apply IH. intros Hin. apply Hnin. now right.
Qed.

(** The last occurrence of [c] splits the bytes. *)
Lemma last_index_from_split (bytes : list ascii) (c : ascii) :
  forall i found,
    In c bytes ->
    exists pre post : list ascii,
      bytes = pre ++ c :: post
      /\ ~ In c post
      /\ last_index_from i bytes c found = (i + Z.of_nat (List.length pre))%Z.
Proof.
  induction bytes as [| x bytes IH]; intros i found Hin; [ contradiction | ].
  cbn [last_index_from].
  destruct (in_dec ascii_dec c bytes) as [Hrest | Hrest].
  - destruct (IH (i + 1)%Z (if Ascii.eqb x c then i else found) Hrest)
      as (pre & post & -> & Hpost & Hidx).
    exists (x :: pre), post. repeat split; [ assumption | ].
    rewrite Hidx. cbn [List.length]. lia.
  - destruct Hin as [-> | Hin]; [ | contradiction ].
    exists [], bytes. repeat split; [ assumption | ].
    rewrite Ascii.eqb_refl, (last_index_from_absent _ _ _ _ Hrest).
    cbn [List.length]. lia.
Qed.

Lemma length_list_ascii_of_string (s : string) :
  List.length (list_ascii_of_string s) = String.length s.
Proof. induction s as [| x s IH]; simpl; [ reflexivity | now rewrite IH ]. Qed.

(** A list splits in one way only at the last occurrence of [c]. *)
Lemma last_split_unique {A : Type} (c : A) (p q p' q' : list A) :
  ~ In c q -> ~ In c q' ->
  p' ++ c :: q' = p ++ c :: q ->
  p = p'.
Proof.
  revert p'. induction p as [| x p IH]; intros p' Hq Hq' Heq.
  - destruct p' as [| y p']; [ reflexivity | ].
    cbn [app] in Heq. injection Heq as Hy Hrest. exfalso. apply Hq.
    rewrite <- Hrest. apply in_or_app. right. now left.
  - destruct p' as [| y p'].
    + cbn [app] in Heq. injection Heq as Hx Hrest. exfalso. apply Hq'.
      rewrite Hrest. apply in_or_app. right. now left.
    + cbn [app] in Heq. injection Heq as Hy Hrest. subst y.
      f_equal. now apply IH.
Qed.

Section EmailDomainFacts.

Context {W : Type}.
Variable ToLower : string -> string.

Lemma allowlist_loop_spec (dom : string) (allowed : list string) :
  IsValid (allowlist_loop ToLower dom allowed) = true
  <-> exists d, In d allowed /\ dom = ToLower d.
Proof.
  induction allowed as [| d allowed IH]; cbn [allowlist_loop].
  - split; [ discriminate | intros (d & [] & _) ].
  - destruct (String.eqb_spec dom (ToLower d)) as [Heq | Hne].
    + split; [ | reflexivity ]. intros _. exists d. split; [ now left | easy ].
    + rewrite IH. split; intros (d' & Hin & Hd).
      * exists d'. split; [ now right | assumption ].
      * destruct Hin as [<- | Hin]; [ contradiction | now exists d' ].
Qed.

Lemma blocklist_loop_dual (dom : string) (l : list string) :
  IsValid (blocklist_loop ToLower dom l)
  = negb (IsValid (allowlist_loop ToLower dom l)).
Proof.
  induction l as [| d l IH]; cbn [blocklist_loop allowlist_loop];
    [ reflexivity | ].
  destruct (String.eqb dom (ToLower d)); [ reflexivity | exact IH ].
Qed.

End EmailDomainFacts.

(** X22: the two domain rules on one list. An address without the byte
    '@' fails both with "invalid email". Otherwise the domain is what
    follows the last '@', and the two rules disagree: [EmailDomainAllowlist]
    passes exactly when the lowered domain is the lowering of an entry of the
    list, and [EmailDomainBlocklist] passes exactly when the allowlist
    fails. *)
Theorem EmailDomain_rules_are_dual :
  forall (W : Type) (ToLower : string -> string) (s : string)
         (l : list string) (w : W),
    (~ In "@"%char (list_ascii_of_string s) ->
     EmailDomainAllowlist ToLower s l w = Some (Fail ["invalid email"], w)
     /\ EmailDomainBlocklist ToLower s l w = Some (Fail ["invalid email"], w))
    /\ (forall pre dom : string,
           s = (pre ++ String "@"%char dom)%string ->
           ~ In "@"%char (list_ascii_of_string dom) ->
           exists ra rb : ValidationResult,
             EmailDomainAllowlist ToLower s l w = Some (ra, w)
             /\ EmailDomainBlocklist ToLower s l w = Some (rb, w)
             /\ IsValid rb = negb (IsValid ra)
             /\ (IsValid ra = true
                 <-> exists d, In d l /\ ToLower dom = ToLower d)).
Proof.
  intros W ToLower s l w. unfold EmailDomainAllowlist, EmailDomainBlocklist.
  split.
  - intros Hnin. unfold LastIndexByte.
    rewrite (last_index_from_absent _ _ _ _ Hnin). now split.
  - intros pre dom -> Hdom.
    assert (Hidx : LastIndexByte (pre ++ String "@"%char dom) "@"%char
                   = Z.of_nat (String.length pre)).
    { unfold LastIndexByte.
      destruct (@last_index_from_split
                  (list_ascii_of_string (pre ++ String "@"%char dom))
                  "@"%char 0 (-1)) as (p & q & Hsplit & Hq & Hres).
      { rewrite list_ascii_of_string_app. apply in_or_app. right. now left. }
      rewrite Hres. rewrite list_ascii_of_string_app in Hsplit.
      cbn [list_ascii_of_string] in Hsplit.
      assert (Hlen : List.length p = List.length (list_ascii_of_string pre))
        by (f_equal;
            exact (@last_split_unique ascii "@"%char p q
                     (list_ascii_of_string pre) (list_ascii_of_string dom)
                     Hq Hdom Hsplit)).
      rewrite Hlen, length_list_ascii_of_string. lia. }
    rewrite Hidx.
    destruct (Z.eqb_spec (Z.of_nat (String.length pre)) (-1)) as [H | _];
      [ lia | ].
    assert (Hslice : slice_from (pre ++ String "@"%char dom)
                                (Z.of_nat (String.length pre) + 1) = dom).
    { unfold slice_from. rewrite list_ascii_of_string_app.
      cbn [list_ascii_of_string].
      replace (Z.to_nat (Z.of_nat (String.length pre) + 1))
        with (List.length (list_ascii_of_string pre ++ ["@"%char])).
      - replace (list_ascii_of_string pre ++ "@"%char :: list_ascii_of_string dom)
          with ((list_ascii_of_string pre ++ ["@"%char])
                  ++ list_ascii_of_string dom)
          by (now rewrite <- app_assoc).
        rewrite skipn_app, skipn_all, Nat.sub_diag. cbn [skipn app].
        apply string_of_list_ascii_of_string.
      - rewrite length_app, length_list_ascii_of_string. cbn [List.length].
        lia. }
    rewrite Hslice. unfold ret.
    exists (allowlist_loop ToLower (ToLower dom) l),
      (blocklist_loop ToLower (ToLower dom) l).
    repeat split.
    + apply blocklist_loop_dual.
    + apply allowlist_loop_spec.
    + apply allowlist_loop_spec.
Qed.

Lemma EmailDomain_rules_are_dual_witness :
  EmailDomainAllowlist (W := unit) (fun s => s) "no-at-sign" ["ex.com"] tt
  = Some (Fail ["invalid email"], tt)
  /\ EmailDomainBlocklist (W := unit) (fun s => s) "no-at-sign" ["ex.com"] tt
     = Some (Fail ["invalid email"], tt).
Proof.
  refine (proj1 (@EmailDomain_rules_are_dual unit (fun s => s) "no-at-sign"
                   ["ex.com"] tt) _).
  intros H. repeat (destruct H as [H | H]; [ discriminate | ]). exact H.
Defined.

(** ** Days of the week *)

(** X23: on every day exactly one of [IsWeekday] and [IsWeekend] passes:
    [IsWeekend] passes on Saturday and on Sunday, [IsWeekday] on every
    other value of [Weekday]. *)
Theorem IsWeekday_is_not_IsWeekend :
  forall (W Time : Type) (Weekday : Time -> Z) (t : Time) (w : W),
    exists r1 r2 : ValidationResult,
      IsWeekday Weekday t w = Some (r1, w)
      /\ IsWeekend Weekday t w = Some (r2, w)
      /\ IsValid r1 = negb (IsValid r2)
      /\ (IsValid r2 = true <-> Weekday t = 6%Z \/ Weekday t = 0%Z).
Proof.
  intros W Time Weekday t w. unfold IsWeekday, IsWeekend, Saturday, Sunday.
  cbn zeta.
  destruct (Z.eqb_spec (Weekday t) 6) as [H6 | H6];
    destruct (Z.eqb_spec (Weekday t) 0) as [H0 | H0]; cbn;
    eexists; eexists; (split; [ reflexivity | ]);
    (split; [ reflexivity | ]); (split; [ reflexivity | ]); cbn;
    split; intros H; auto; try discriminate; destruct H; contradiction.
Qed.

(** ** The text of a float *)

Lemma drop_zeros_repeat (n : nat) (r : list ascii) :
  drop_zeros (repeat "0"%char n ++ r) = drop_zeros r.
Proof. induction n as [| n IH]; [ reflexivity | exact IH ]. Qed.

Lemma rev_repeat_same {A : Type} (x : A) (n : nat) :
  rev (repeat x n) = repeat x n.
Proof.
  induction n as [| n IH]; [ reflexivity | ].
  cbn [repeat rev]. rewrite IH. clear IH.
  induction n as [| n IH]; [ reflexivity | ].
  cbn [repeat app]. now rewrite IH.
Qed.

(** X24: [trimFloatZeros] removes every trailing byte '0' of the text
    [FormatFloat] returns, whether a decimal point precedes them or not, and
    then one trailing '.': if the text is [body] followed by [n] zeros and
    [body] does not end in '0', the result is [body], less its last byte when
    that is '.'. So a text without a point loses its trailing zeros as
    well. *)
Theorem trimFloatZeros_drops_trailing_zeros :
  forall (FormatFloat : float -> string) (f : float)
         (body : list ascii) (n : nat),
    list_ascii_of_string (FormatFloat f) = body ++ repeat "0"%char n ->
    (forall body' : list ascii, body <> body' ++ ["0"%char]) ->
    trimFloatZeros FormatFloat f
    = string_of_list_ascii
        (match rev body with
         | "."%char :: r => rev r
         | _ => body
         end).
Proof.
  intros FormatFloat f body n Htext Hbody. unfold trimFloatZeros.
  rewrite Htext, rev_app_distr, rev_repeat_same, drop_zeros_repeat.
  assert (Hr : drop_zeros (rev body) = rev body).
  { destruct (rev body) as [| c r] eqn:Hrev; [ reflexivity | ].
    cbn [drop_zeros].
    destruct (Ascii.eqb_spec c "0"%char) as [-> | Hc].
    - exfalso. apply (Hbody (rev r)).
      rewrite <- (rev_involutive body), Hrev. reflexivity.
    - destruct c as [[|] [|] [|] [|] [|] [|] [|] [|]];
        try reflexivity. now contradiction Hc. }
  rewrite Hr. unfold drop_dot.
  destruct (rev body) as [| c r] eqn:Hrev.
  - cbn [rev]. rewrite <- (rev_involutive body), Hrev. reflexivity.
  - destruct (Ascii.eqb_spec c "."%char) as [-> | Hc]; [ reflexivity | ].
    assert (Hb : rev (c :: r) = body)
      by (now rewrite <- Hrev, rev_involutive).
    destruct c as [[|] [|] [|] [|] [|] [|] [|] [|]];
      try (now rewrite Hb); now contradiction Hc.
Qed.

Lemma trimFloatZeros_drops_trailing_zeros_witness :
  trimFloatZeros (fun _ => "100") 100%float = "1".
Proof.
  refine (@trimFloatZeros_drops_trailing_zeros (fun _ => "100") 100%float
            ["1"%char] 2 _ _).
  - reflexivity.
  - intros [| x [| y body']]; discriminate.
Defined.

(** ** Bounds on floats and NaN *)

Lemma is_nan_Prim2SF (v : float) :
  PrimFloat.is_nan v = true -> Prim2SF v = S754_nan.
Proof.
  unfold PrimFloat.is_nan. rewrite eqb_spec.
  destruct (Prim2SF v) as [s | s | | s m e]; try reflexivity;
    unfold SFeqb, SFcompare.
  - discriminate.
  - destruct s; discriminate.
  - rewrite Z.compare_refl.
    change (PosDef.Pos.compare_cont Eq m m) with (Pos.compare m m).
    rewrite Pos.compare_refl. destruct s; discriminate.
Qed.

Lemma nan_comparisons (v m : float) :
  PrimFloat.is_nan v = true ->
  (v <? m)%float = false /\ (m <? v)%float = false /\ (v =? m)%float = false.
Proof.
  intros Hnan. apply is_nan_Prim2SF in Hnan.
  rewrite !ltb_spec, eqb_spec, Hnan. unfold SFltb, SFeqb, SFcompare.
  repeat split. all: now destruct (Prim2SF m).
Qed.

(** X25: a NaN passes (valid result, no message) every rule that is written
    as a comparison that must not hold ([FloatMin], [FloatMax], [FloatBetween], [FloatNonZero]),
    whatever the bounds, and fails the two written as a comparison that must
    hold ([FloatGreaterThan], [FloatLessThan]). *)
Theorem Float_rules_on_NaN :
  forall (W : Type) (FormatFloat : float -> string) (v m lo hi : float)
         (w : W),
    PrimFloat.is_nan v = true ->
    FloatMin FormatFloat v m w
    = Some ({| IsValid := true; Message := [] |}, w)
    /\ FloatMax FormatFloat v m w
       = Some ({| IsValid := true; Message := [] |}, w)
    /\ FloatBetween FormatFloat v lo hi w
       = Some ({| IsValid := true; Message := [] |}, w)
    /\ FloatNonZero v w = Some ({| IsValid := true; Message := [] |}, w)
    /\ FloatGreaterThan FormatFloat v m w
       = Some ({| IsValid := false;
               Message := [("must be > "
                              ++ trimFloatZeros FormatFloat m)%string] |}, w)
    /\ FloatLessThan FormatFloat v m w
       = Some ({| IsValid := false;
               Message := [("must be < "
                              ++ trimFloatZeros FormatFloat m)%string] |}, w).
Proof.
  intros W FormatFloat v m lo hi w Hnan.
  destruct (nan_comparisons v m Hnan) as (H1 & H2 & _).
  destruct (nan_comparisons v lo Hnan) as (H3 & _ & _).
  destruct (nan_comparisons v hi Hnan) as (_ & H4 & _).
  destruct (nan_comparisons v 0%float Hnan) as (_ & _ & H5).
  unfold FloatMin, FloatMax, FloatBetween, FloatNonZero, FloatGreaterThan,
    FloatLessThan.
  rewrite H1, H2, H3, H4, H5. repeat split.
Qed.

Lemma Float_rules_on_NaN_witness :
  FloatMin (W := unit) (fun _ => "2.5") nan 2.5%float tt
  = Some ({| IsValid := true; Message := [] |}, tt)
  /\ FloatMax (W := unit) (fun _ => "2.5") nan 2.5%float tt
     = Some ({| IsValid := true; Message := [] |}, tt)
  /\ FloatBetween (W := unit) (fun _ => "2.5") nan 0%float 1%float tt
     = Some ({| IsValid := true; Message := [] |}, tt)
  /\ FloatNonZero (W := unit) nan tt
     = Some ({| IsValid := true; Message := [] |}, tt)
  /\ FloatGreaterThan (W := unit) (fun _ => "2.5") nan 2.5%float tt
     = Some ({| IsValid := false;
               Message := [("must be > "
                              ++ trimFloatZeros (fun _ => "2.5")
                                                2.5%float)%string] |}, tt)
  /\ FloatLessThan (W := unit) (fun _ => "2.5") nan 2.5%float tt
     = Some ({| IsValid := false;
               Message := [("must be < "
                              ++ trimFloatZeros (fun _ => "2.5")
                                                2.5%float)%string] |}, tt).
Proof.
  refine (@Float_rules_on_NaN unit (fun _ => "2.5") nan 2.5%float 0%float
            1%float tt _).
  reflexivity.
Defined.
